(** * FRion.correct: ionospheric Faraday-rotation correction of Stokes Q/U cubes

    A shallow embedding of [src/FRion/correct.py].

    - Python exceptions are an error monad ([result]); the functions that
      touch files or header objects run in a state-and-error monad over a
      [world] (file system, header objects, call log).
    - A numpy array is a strided view: a shape, one stride per axis and a flat
      buffer.  [np.moveaxis] permutes shape and strides over the same buffer,
      ufuncs broadcast their operands and fill a fresh buffer.
    - Cube samples are IEEE binary64 numbers ([PrimFloat.float]); complex
      numbers are pairs of them with numpy's arithmetic loops.
    - A FITS header is its list of cards, in order.  The header astropy
      builds for a file it writes is a parameter ([Writer]). *)

From Stdlib Require Import Floats ZArith Ascii String.
From stdpp Require Import base list strings pretty gmap.

Local Open Scope Z_scope.
Local Open Scope string_scope.

(** ** Exceptions *)

Inductive exn :=
  | KeyError
  | AttributeError
  | TypeError
  | IndexError
  | ValueError
  | AxisError
  | OSError
  | Exception (msg : string).

Inductive result (A : Type) :=
  | Ok (a : A)
  | Raise (e : exn).
Arguments Ok {A} a.
Arguments Raise {A} e.

Definition rbind {A B} (r : result A) (k : A → result B) : result B :=
  match r with
  | Ok a => k a
  | Raise e => Raise e
  end.

Notation "x ←? r ; k" := (rbind r (λ x, k))
  (at level 20, r at level 100, k at level 200, right associativity,
   format "x  ←?  r ;  '/' k").

Notation "' p ←? r ; k" := (rbind r (λ x, match x with p => k end))
  (at level 20, p pattern, r at level 100, k at level 200, right associativity,
   format "' p  ←?  r ;  '/' k").

Definition is_ok {A} (r : result A) : bool :=
  match r with Ok _ => true | Raise _ => false end.

(** ** Strings as Python uses them here *)

Definition ascii_upper (c : ascii) : ascii :=
  let n := nat_of_ascii c in
  if ((97 <=? n)%nat && (n <=? 122)%nat)%bool then ascii_of_nat (n - 32) else c.

(** [s.upper()] on the ASCII text a FITS card holds. *)
Fixpoint str_upper (s : string) : string :=
  match s with
  | EmptyString => EmptyString
  | String c s' => String (ascii_upper c) (str_upper s')
  end.

(** [p in s] for strings. *)
Fixpoint str_contains (p s : string) : bool :=
  String.prefix p s ||
  match s with
  | EmptyString => false
  | String _ s' => str_contains p s'
  end.

(** [str(i)] for an int. *)
Definition str (i : Z) : string := pretty i.

(** [range(a, b)] *)
Definition py_range (a b : Z) : list Z :=
  (λ k : nat, a + Z.of_nat k) <$> seq 0 (Z.to_nat (b - a)).

(** ** FITS headers *)

Inductive value :=
  | VInt (n : Z)
  | VBool (b : bool)
  | VFloat (x : float)
  | VStr (s : string).

Definition card : Type := string * value.
Definition header : Type := list card.

Fixpoint header_find (key : string) (h : header) : option value :=
  match h with
  | [] => None
  | (k, v) :: h' => if String.eqb k key then Some v else header_find key h'
  end.

(** [header[key]] *)
Definition header_getitem (h : header) (key : string) : result value :=
  match header_find key h with
  | Some v => Ok v
  | None => Raise KeyError
  end.

(** [v.upper()]: only strings have the method. *)
Definition value_upper (v : value) : result string :=
  match v with
  | VStr s => Ok (str_upper s)
  | _ => Raise AttributeError
  end.

(** The integer a header value stands for where Python wants an index
    ([range], axis arithmetic); [bool] is a subclass of [int]. *)
Definition value_index (v : value) : result Z :=
  match v with
  | VInt n => Ok n
  | VBool b => Ok (Z.b2z b)
  | VFloat _ | VStr _ => Raise TypeError
  end.

(** The test inside the [try]: ['FREQ' in header['CTYPE'+str(i)].upper()]. *)
Definition ctype_has_freq (h : header) (i : Z) : result bool :=
  v ←? header_getitem h ("CTYPE" +:+ str i);
  s ←? value_upper v;
  Ok (str_contains "FREQ" s).

(** One turn of the loop of [find_freq_axis]; the bare [except: pass] keeps
    [freq_axis] whatever was raised. *)
Definition scan_axis (h : header) (freq_axis i : Z) : Z :=
  match ctype_has_freq h i with
  | Ok true => i
  | Ok false => freq_axis
  | Raise _ => freq_axis
  end.

Definition find_freq_axis (h : header) : result Z :=
  naxis ←? header_getitem h "NAXIS";
  n ←? value_index naxis;
  Ok (fold_left (scan_axis h) (py_range 1 (n + 1)) 0).

(** The spec's reading of a matching axis: its type label is present, is a
    string, and contains FREQ once upper-cased. *)
Definition axis_is_freq (h : header) (i : Z) : bool :=
  match header_find ("CTYPE" +:+ str i) h with
  | Some (VStr s) => str_contains "FREQ" (str_upper s)
  | _ => false
  end.

(** ** Complex numbers, as numpy's complex128 loops compute them *)

Record complex := Complex { re : float; im : float }.

(** A real operand of a complex loop is cast to [x + 0j]. *)
Definition of_real (x : float) : complex := Complex x 0.

(** The Python literal [1.j]. *)
Definition imag_unit : complex := Complex 0 1.

Definition cadd (a b : complex) : complex :=
  Complex (re a + re b) (im a + im b).

Definition cmul (a b : complex) : complex :=
  Complex (re a * re b - im a * im b) (re a * im b + im a * re b).

(** numpy's complex division loop: Smith's method, and for a zero divisor
    the two components divided by [|0|]. *)
Definition cdiv (a b : complex) : complex :=
  let in2r_abs := abs (re b) in
  let in2i_abs := abs (im b) in
  if (in2i_abs <=? in2r_abs)%float then
    if ((in2r_abs =? 0) && (in2i_abs =? 0))%float then
      Complex (re a / in2r_abs) (im a / in2r_abs)
    else
      let rat := (im b / re b)%float in
      let scl := (1 / (re b + im b * rat))%float in
      Complex ((re a + im a * rat) * scl) ((im a - re a * rat) * scl)
  else
    let rat := (re b / im b)%float in
    let scl := (1 / (im b + re b * rat))%float in
    Complex ((re a * rat + im a) * scl) ((im a * rat - re a) * scl).

(** A float is infinite or not a number. *)
Definition inf_or_nan (x : float) : bool :=
  match Prim2SF x with
  | S754_nan | S754_infinity _ => true
  | _ => false
  end.

(** [z == 0] for a complex [z]. *)
Definition czero (z : complex) : bool := ((re z =? 0) && (im z =? 0))%float.

Global Instance float_inhabited : Inhabited float := populate 0%float.
Global Instance complex_inhabited : Inhabited complex := populate (Complex 0 0).

(** ** Arrays *)

Local Open Scope nat_scope.
Local Open Scope list_scope.

(** An ndarray: the extent and the stride (in elements) of each axis, over a
    flat buffer. *)
Record ndarray (T : Type) := NDArray {
  shape : list nat;
  strides : list nat;
  buf : list T
}.
Arguments NDArray {T} shape strides buf.
Arguments shape {T} _.
Arguments strides {T} _.
Arguments buf {T} _.

Definition ndim {T} (A : ndarray T) : nat := length (shape A).

(** [A.size] *)
Definition size_of (s : list nat) : nat := foldr Nat.mul 1 s.

(** Position in the buffer of the element at a multi-index. *)
Fixpoint offset (st idx : list nat) : nat :=
  match st, idx with
  | s :: st', i :: idx' => i * s + offset st' idx'
  | _, _ => 0
  end.

(** [A[idx]] for a full multi-index.  Inside the shape of an array numpy
    built, the position is inside the buffer. *)
Definition get {T} `{Inhabited T} (A : ndarray T) (idx : list nat) : T :=
  nth (offset (strides A) idx) (buf A) inhabitant.

(** A multi-index is inside a shape. *)
Definition in_range (idx s : list nat) : Prop := Forall2 lt idx s.

(** Strides of a C-contiguous array of a given shape. *)
Fixpoint c_strides (s : list nat) : list nat :=
  match s with
  | [] => []
  | _ :: s' => size_of s' :: c_strides s'
  end.

(** All multi-indices of a shape, in C (row-major) order. *)
Fixpoint indices (s : list nat) : list (list nat) :=
  match s with
  | [] => [[]]
  | n :: s' => i ← seq 0 n; cons i <$> indices s'
  end.

(** A fresh array of shape [s] whose element at [idx] is [f idx]. *)
Definition from_fun {T} (s : list nat) (f : list nat → T) : ndarray T :=
  NDArray s (c_strides s) (f <$> indices s).

(** A 1-D array from a Python sequence. *)
Definition array1 {T} (l : list T) : ndarray T := NDArray [length l] [1] l.

(** The same view with every element mapped ([.real], [.imag]). *)
Definition amap {T U} (f : T → U) (A : ndarray T) : ndarray U :=
  NDArray (shape A) (strides A) (f <$> buf A).

(** *** Axis permutation *)

(** [normalize_axis_index(axis, ndim)] *)
Definition normalize_axis_index (axis : Z) (nd : nat) : result nat :=
  if ((- Z.of_nat nd <=? axis) && (axis <? Z.of_nat nd))%Z then
    Ok (Z.to_nat (if (axis <? 0)%Z then axis + Z.of_nat nd else axis)%Z)
  else Raise AxisError.

(** [l.insert(k, x)] for [0 <= k]. *)
Definition list_insert_at {X} (k : nat) (x : X) (l : list X) : list X :=
  take k l ++ x :: drop k l.

(** The permutation [np.moveaxis] builds for one source and one
    destination: the other axes in order, the source put in at the
    destination. *)
Definition moveaxis_order (nd src dst : nat) : list nat :=
  list_insert_at dst src (filter (λ n, n ≠ src) (seq 0 nd)).

Definition permute {X} (d : X) (l : list X) (order : list nat) : list X :=
  (λ i, nth i l d) <$> order.

(** [A.transpose(order)]: a view on the same buffer. *)
Definition transpose {T} (A : ndarray T) (order : list nat) : ndarray T :=
  NDArray (permute 0 (shape A) order) (permute 0 (strides A) order) (buf A).

(** [np.moveaxis(A, source, destination)] *)
Definition moveaxis {T} (A : ndarray T) (source destination : Z)
  : result (ndarray T) :=
  src ←? normalize_axis_index source (ndim A);
  dst ←? normalize_axis_index destination (ndim A);
  Ok (transpose A (moveaxis_order (ndim A) src dst)).

(** The axis move of [readData], lines 123-125, on one cube. *)
Definition to_canonical {T} (A : ndarray T) (freq_axis N_dim : Z)
  : result (ndarray T) :=
  if bool_decide (freq_axis ≠ 0%Z ∧ freq_axis ≠ N_dim)
  then moveaxis A (N_dim - freq_axis) 0
  else Ok A.

(** The axis move of [write_corrected_cubes], lines 150-152, on one cube. *)
Definition to_native {T} (A : ndarray T) (freq_axis N_dim : Z)
  : result (ndarray T) :=
  if bool_decide (freq_axis ≠ 0%Z)
  then moveaxis A 0 (N_dim - freq_axis)
  else Ok A.

(** *** Broadcasting and ufuncs *)

Definition broadcast_dim (a b : nat) : result nat :=
  if a =? b then Ok a
  else if a =? 1 then Ok b
  else if b =? 1 then Ok a
  else Raise ValueError.

Fixpoint broadcast_dims (s1 s2 : list nat) : result (list nat) :=
  match s1, s2 with
  | a :: s1', b :: s2' =>
      d ←? broadcast_dim a b;
      r ←? broadcast_dims s1' s2';
      Ok (d :: r)
  | _, _ => Ok []
  end.

(** A shape with 1s prepended up to rank [k]. *)
Definition pad_shape (k : nat) (s : list nat) : list nat :=
  replicate (k - length s) 1 ++ s.

(** numpy's broadcasting rule: the shorter shape is padded with 1s on the
    left, then each pair of extents must agree or one of them be 1. *)
Definition broadcast_shapes (s1 s2 : list nat) : result (list nat) :=
  let k := length s1 `max` length s2 in
  broadcast_dims (pad_shape k s1) (pad_shape k s2).

(** Strides of an operand seen at the broadcast shape: an axis that is
    stretched is read with stride 0. *)
Fixpoint broadcast_strides (sh st s : list nat) : list nat :=
  match sh, st, s with
  | a :: sh', x :: st', n :: s' =>
      (if a =? n then x else 0) :: broadcast_strides sh' st' s'
  | _, _, _ => []
  end.

(** [np.broadcast_to(A, s)] for a shape [s] that [A] broadcasts to. *)
Definition broadcast_to {T} (A : ndarray T) (s : list nat) : ndarray T :=
  let k := length s - ndim A in
  NDArray s
          (replicate k 0 ++ broadcast_strides (shape A) (strides A) (drop k s))
          (buf A).

(** A unary elementwise loop (also a binary one with a scalar operand); the
    result is a fresh array.  The model lays fresh arrays out in C order;
    numpy may pick another layout, which [shape] and [get] do not observe. *)
Definition ufunc1 {T U} `{Inhabited T} (f : T → U) (A : ndarray T) : ndarray U :=
  from_fun (shape A) (λ idx, f (get A idx)).

(** A binary elementwise loop over two arrays. *)
Definition ufunc2 {T1 T2 U} `{Inhabited T1, Inhabited T2}
    (f : T1 → T2 → U) (A : ndarray T1) (B : ndarray T2) : result (ndarray U) :=
  s ←? broadcast_shapes (shape A) (shape B);
  Ok (from_fun s (λ idx, f (get (broadcast_to A s) idx) (get (broadcast_to B s) idx))).

(** The elements in C order. *)
Definition ravel {T} `{Inhabited T} (A : ndarray T) : list T :=
  get A <$> indices (shape A).

(** [np.reshape(A, newshape)] *)
Definition reshape {T} `{Inhabited T} (A : ndarray T) (newshape : list nat)
  : result (ndarray T) :=
  if size_of newshape =? size_of (shape A)
  then Ok (NDArray newshape (c_strides newshape) (ravel A))
  else Raise ValueError.

(** ** The correction engine *)

Definition correct_cubes (Qdata Udata : ndarray float) (theta : ndarray complex)
  : result (ndarray float * ndarray float) :=
  Pdata ←? ufunc2 (λ q c, cadd (of_real q) c) Qdata
                  (ufunc1 (λ u, cmul imag_unit (of_real u)) Udata);
  arrshape ←? match shape Pdata with
              | [] => Raise IndexError
              | _ :: rest => Ok (size_of (shape theta) :: replicate (length rest) 1)
              end;
  theta_b ←? reshape theta arrshape;
  Pcorr ←? ufunc2 cdiv Pdata theta_b;
  Ok (amap re Pcorr, amap im Pcorr).

(** [Q + i*U] at one index, as the two loops of line 174 compute it: the
    scalar [1.j] times the sample of U cast to complex, added to the sample
    of Q cast to complex. *)
Definition polarization (Qdata Udata : ndarray float) (idx : list nat) : complex :=
  cadd (of_real (get Qdata idx)) (cmul imag_unit (of_real (get Udata idx))).

(** The cube of the spec's example: two channels, one pixel. *)
Definition Q_example : ndarray float := NDArray [2; 1; 1] [1; 1; 1] [1; 0]%float.
Definition U_example : ndarray float := NDArray [2; 1; 1] [1; 1; 1] [0; 1]%float.
Definition theta_example : ndarray complex := array1 [Complex 1 0; Complex 0 1].

(** A prediction whose second channel is fully depolarized. *)
Definition theta_degenerate : ndarray complex := array1 [Complex 1 0; Complex 0 0].

(** ** Files, header objects and the I/O monad *)

(** One whitespace-delimited field of a text table: it reads as a number,
    or it does not. *)
Inductive field :=
  | Num (x : float)
  | Word (w : string).

(** What is stored at a path: a text table, given by its lines with comments
    stripped and split into fields, or a FITS container with its primary
    header and image. *)
Inductive file :=
  | TextFile (rows : list (list field))
  | FitsFile (hdr : header) (data : ndarray float).

(** Calls the orchestrator makes, in the order it makes them. *)
Inductive event :=
  | CallCorrect
  | CallWriteto (path : string).

(** Header objects live in a store and are passed by reference. *)
Definition loc : Type := nat.

Record world := World {
  fs : gmap string file;
  heap : list header;
  log : list event
}.

Definition io (A : Type) : Type := world → result A * world.

Definition io_ret {A} (a : A) : io A := λ w, (Ok a, w).

Definition io_raise {A} (e : exn) : io A := λ w, (Raise e, w).

Definition io_bind {A B} (m : io A) (k : A → io B) : io B :=
  λ w, match m w with
       | (Ok a, w') => k a w'
       | (Raise e, w') => (Raise e, w')
       end.

(** A computation that touches no state. *)
Definition io_lift {A} (r : result A) : io A := λ w, (r, w).

Notation "x ←! m ; k" := (io_bind m (λ x, k))
  (at level 20, m at level 100, k at level 200, right associativity,
   format "x  ←!  m ;  '/' k").
Notation "' p ←! m ; k" := (io_bind m (λ x, match x with p => k end))
  (at level 20, p pattern, m at level 100, k at level 200, right associativity,
   format "' p  ←!  m ;  '/' k").

Definition io_log (e : event) : io unit :=
  λ w, (Ok tt, World (fs w) (heap w) (log w ++ [e])).

(** Allocation of a header object. *)
Definition header_new (h : header) : io loc :=
  λ w, (Ok (length (heap w)), World (fs w) (heap w ++ [h]) (log w)).

(** The cards of a header object.  Every reference the program holds was
    allocated before it is read; a reference to nothing reads as no cards. *)
Definition header_cards (l : loc) : io header :=
  λ w, (Ok (default ([] : header) (heap w !! l : option header)), w).

(** [header.copy()] *)
Definition header_copy (l : loc) : io loc :=
  h ←! header_cards l;
  header_new h.

(** *** Commentary cards *)

(** A card with no keyword and no value: eighty spaces in the file. *)
Definition card_is_blank (c : card) : bool :=
  match c with
  | (EmptyString, VStr EmptyString) => true
  | _ => false
  end.

(** [Header._useblanks(1)]: a blank card at the end makes room for the card
    that was added. *)
Definition useblanks (h : header) : header :=
  match last h with
  | Some c => if card_is_blank c then take (length h - 1) h else h
  | None => h
  end.

(** [Header.index(keyword, start=len(header) - 1, stop=-1)]: the last card
    with the keyword.  Keywords are held in upper case. *)
Fixpoint last_index (keyword : string) (h : header) : option nat :=
  match h with
  | [] => None
  | (k, _) :: h' =>
      match last_index keyword h' with
      | Some i => Some (S i)
      | None => if String.eqb k keyword then Some 0%nat else None
      end
  end.

(** [Header.insert(idx, card)] of a card with a keyword: past the last card
    it is an append at the very end. *)
Definition header_insert (idx : nat) (c : card) (h : header) : header :=
  if (length h <=? idx)%nat
  then h ++ [c]
  else useblanks (take idx h ++ c :: drop idx h).

(** The cards in front of the blank cards that end a header. *)
Fixpoint strip_blanks (reversed : list card) : list card :=
  match reversed with
  | [] => []
  | c :: rest => if card_is_blank c then strip_blanks rest else reversed
  end.

(** [Header.append(card, bottom=True)] of a card with a keyword: after the
    last card that is not blank. *)
Definition header_append_bottom (c : card) (h : header) : header :=
  let idx := length (strip_blanks (reverse h)) in
  useblanks (take idx h ++ c :: drop idx h).

(** [Header._splitcommentary]: a text longer than the 72 columns a card has
    for it is cut into as many cards as it takes. *)
Fixpoint split_text (fuel : nat) (s : string) : list string :=
  match fuel with
  | O => []
  | S fuel' =>
      if (String.length s <=? 72)%nat
      then [s]
      else substring 0 72 s
           :: split_text fuel' (substring 72 (String.length s - 72) s)
  end.

Definition splitcommentary (keyword text : string) : list card :=
  (λ s, (keyword, VStr s)) <$> split_text (S (String.length text)) text.

(** [header[keyword] = text] for a commentary keyword ([Header._update]):
    the cards go after the last card of that keyword, and at the bottom when
    the header has none. *)
Definition add_commentary (keyword text : string) (h : header) : header :=
  let cards := splitcommentary keyword text in
  match last_index keyword h with
  | Some idx => foldl (λ h c, header_insert (S idx) c h) h (reverse cards)
  | None => foldl (λ h c, header_append_bottom c h) h cards
  end.

(** [header.add_history(text)] *)
Definition add_history (l : loc) (text : string) : io unit :=
  λ w, (Ok tt,
        World (fs w)
              (alter (λ h : header, (add_commentary "HISTORY" text h : header)) l (heap w))
              (log w)).

(** [pf.open(path)[0]]: the primary header, as a new object, and the image. *)
Definition fits_open (path : string) : io (loc * ndarray float) :=
  λ w, match fs w !! path with
       | Some (FitsFile hdr data) => io_bind (header_new hdr) (λ l, io_ret (l, data)) w
       | _ => (Raise OSError, w)
       end.

(** The header of a container that [pf.writeto] creates is built by astropy
    from the cards it is handed and the image it writes: the structural
    cards (SIMPLE, BITPIX, NAXIS, NAXISn) describe the image written, the
    other cards are carried over.  That construction is astropy's; it is a
    parameter here, and nothing is assumed of it. *)
Class Writer := stored_header : header → ndarray float → header.

(** [pf.writeto(path, data, header, overwrite=overwrite)]: an existing file
    is replaced only when [overwrite] is set. *)
Definition writeto `{Writer} (path : string) (data : ndarray float) (hdr : loc)
    (overwrite : bool) : io unit :=
  _ ←! io_log (CallWriteto path);
  h ←! header_cards hdr;
  λ w, match fs w !! path with
       | Some _ =>
           if overwrite
           then (Ok tt, World (<[path := FitsFile (stored_header h data) data]> (fs w))
                              (heap w) (log w))
           else (Raise OSError, w)
       | None => (Ok tt, World (<[path := FitsFile (stored_header h data) data]> (fs w))
                               (heap w) (log w))
       end.

(** ** The prediction loader *)

Definition field_value (f : field) : float :=
  match f with
  | Num x => x
  | Word _ => nan
  end.

(** [np.squeeze]: axes of extent 1 are dropped. *)
Fixpoint squeeze_axes (sh st : list nat) : list nat * list nat :=
  match sh, st with
  | n :: sh', x :: st' =>
      let '(sh'', st'') := squeeze_axes sh' st' in
      if n =? 1 then (sh'', st'') else (n :: sh'', x :: st'')
  | _, _ => ([], [])
  end.

Definition squeeze {T} (A : ndarray T) : ndarray T :=
  let '(sh, st) := squeeze_axes (shape A) (strides A) in NDArray sh st (buf A).

(** [A.T] *)
Definition transposed {T} (A : ndarray T) : ndarray T :=
  NDArray (reverse (shape A)) (reverse (strides A)) (buf A).

(** [np.genfromtxt(filename, unpack=True)] on the lines of a table, with
    numpy's defaults: blank lines are skipped, the first line fixes the
    number of columns and a line with another number is an error, a field
    that does not read as a number becomes NaN, and the table is squeezed
    before it is transposed.  A file with no data gives an empty array. *)
Definition genfromtxt (lines : list (list field)) : result (ndarray float) :=
  let rows := filter (λ r, r ≠ []) lines in
  match rows with
  | [] => Ok (NDArray [0] [1] [])
  | first :: _ =>
      let nbcols := length first in
      if forallb (λ r, length r =? nbcols) rows
      then Ok (transposed (squeeze
                 (NDArray [length rows; nbcols] [nbcols; 1]
                          (field_value <$> concat rows))))
      else Raise ValueError
  end.

(** [A[k]] along the first axis. *)
Definition subarray {T} (A : ndarray T) (k : nat) : ndarray T :=
  NDArray (tail (shape A)) (tail (strides A))
          (drop (k * hd 0 (strides A)) (buf A)).

(** [(a, b, c) = A]: iteration along the first axis must give three items. *)
Definition unpack3 {T} (A : ndarray T)
  : result (ndarray T * ndarray T * ndarray T) :=
  match shape A with
  | [] => Raise TypeError
  | n :: _ =>
      if n =? 3 then Ok (subarray A 0, subarray A 1, subarray A 2)
      else Raise ValueError
  end.

(** Lines 73-75 on the array [genfromtxt] returned: the tuple assignment,
    then [theta = real + 1.j*imag]. *)
Definition load_table (table : ndarray float)
  : result (ndarray float * ndarray complex) :=
  '(frequencies, real, imag) ←? unpack3 table;
  theta ←? ufunc2 (λ r c, cadd (of_real r) c) real
                  (ufunc1 (λ x, cmul imag_unit (of_real x)) imag);
  Ok (frequencies, theta).

(** A path with no file cannot be opened; a FITS container is taken not to
    read as a table. *)
Definition read_prediction (filename : string)
  : io (ndarray float * ndarray complex) :=
  λ w, match fs w !! filename with
       | Some (TextFile lines) =>
           io_lift (table ←? genfromtxt lines; load_table table) w
       | Some (FitsFile _ _) => (Raise ValueError, w)
       | None => (Raise OSError, w)
       end.

(** ** Reading and writing the cubes *)

Definition readData (Qfilename Ufilename : string)
  : io (ndarray float * ndarray float * loc) :=
  '(header, Qdata) ←! fits_open Qfilename;
  '(_, Udata) ←! fits_open Ufilename;
  cards ←! header_cards header;
  N_dim ←! io_lift (header_getitem cards "NAXIS");
  freq_axis ←! io_lift (find_freq_axis cards);
  n ←! io_lift (value_index N_dim);
  Qdata ←! io_lift (to_canonical Qdata freq_axis n);
  Udata ←! io_lift (to_canonical Udata freq_axis n);
  io_ret (Qdata, Udata, header).

Definition history_note : string :=
  "Corrected for ionospheric Faraday rotation using FRion.".

(** Lines 148-152 of [write_corrected_cubes]: the cubes put back in the axis
    order the header describes. *)
Definition restore_layout (output_header : header) (Qcorr Ucorr : ndarray float)
  : result (ndarray float * ndarray float) :=
  N_dim ←? header_getitem output_header "NAXIS";
  freq_axis ←? find_freq_axis output_header;
  n ←? value_index N_dim;
  Qcorr ←? to_native Qcorr freq_axis n;
  Ucorr ←? to_native Ucorr freq_axis n;
  Ok (Qcorr, Ucorr).

Definition write_corrected_cubes `{Writer} (Qoutputname Uoutputname : string)
    (Qcorr Ucorr : ndarray float) (header : loc) (overwrite : bool) : io unit :=
  output_header ←! header_copy header;
  _ ←! add_history output_header history_note;
  cards ←! header_cards output_header;
  '(Qcorr, Ucorr) ←! io_lift (restore_layout cards Qcorr Ucorr);
  _ ←! writeto Qoutputname Qcorr output_header overwrite;
  writeto Uoutputname Ucorr output_header overwrite.

(** ** The orchestrator *)

(** [A.shape[0]] *)
Definition shape0 {T} (A : ndarray T) : result nat :=
  match shape A with
  | [] => Raise IndexError
  | n :: _ => Ok n
  end.

Definition apply_correction_to_files `{Writer}
    (Qfile Ufile predictionfile Qoutfile Uoutfile : string) (overwrite : bool)
  : io unit :=
  '(frequencies, theta) ←! read_prediction predictionfile;
  '(Qdata, Udata, header) ←! readData Qfile Ufile;
  if bool_decide (shape Qdata ≠ shape Udata)
  then io_raise (Exception "Q and U files don't have same dimensions.")
  else
    channels ←! io_lift (shape0 Qdata);
    if bool_decide (channels ≠ size_of (shape theta))
    then io_raise (Exception
           "Prediction file does not have same number of channels as FITS cube.")
    else
      _ ←! io_log CallCorrect;
      '(Qcorr, Ucorr) ←! io_lift (correct_cubes Qdata Udata theta);
      write_corrected_cubes Qoutfile Uoutfile Qcorr Ucorr header overwrite.

(** ** Vocabulary of the loader's contract *)

(** A row yields exactly three numeric fields. *)
Definition three_numeric (r : list field) : bool :=
  match r with
  | [Num _; Num _; Num _] => true
  | _ => false
  end.

(** The row of a table line with three fields. *)
Definition row_of (t : field * field * field) : list field :=
  let '(a, b, c) := t in [a; b; c].

(** The rows [genfromtxt] keeps. *)
Definition data_rows (lines : list (list field)) : list (list field) :=
  filter (λ r, r ≠ []) lines.

(** Whether a table of [n] rows of [k] fields each loads. *)
Definition table_loads (n k : nat) : bool :=
  (k =? 3) || ((k =? 1) && (n =? 3)).

Definition one_column : list (list field) := [[Num 1]; [Num 2]; [Num 3]]%float.

Definition with_word : list (list field) :=
  [[Num 1; Word "n/a"; Num 0]; [Num 2; Num 0; Num 1]]%float.

Definition disk_of (path : string) (f : file) : world :=
  World {[ path := f ]} [] [].

Definition two_channels : list (field * field * field) :=
  [(Num 1, Num 1, Num 0); (Num 2, Num 0, Num 1)]%float.

(** ** Vocabulary of the orchestrator's contract *)

(** Nothing was written and nothing was called between two worlds. *)
Definition same_disk (w w' : world) : Prop :=
  fs w' = fs w ∧ log w' = log w.

(** A computation that writes no file and makes no logged call. *)
Definition disk_silent {A} (m : io A) : Prop :=
  ∀ w, same_disk w (m w).2.

(** A header ends in a blank card. *)
Definition ends_blank (h : header) : bool :=
  match last h with
  | Some c => card_is_blank c
  | None => false
  end.

(** The card that carries the note. *)
Definition note_card : card := ("HISTORY", VStr history_note).

(** The header as [write_corrected_cubes] annotates it. *)
Definition annotated (h : header) : header :=
  add_commentary "HISTORY" history_note h.

(** ** Sample worlds *)

Definition cube_header : header :=
  [("NAXIS", VInt 3); ("CTYPE1", VStr "RA---SIN"); ("CTYPE2", VStr "DEC--SIN");
   ("CTYPE3", VStr "FREQ")].

Definition U_wide : ndarray float :=
  NDArray [2; 1; 2] [2; 2; 1] [0; 0; 1; 1]%float.

Definition sample_files (U : ndarray float) : gmap string file :=
  <["q.fits" := FitsFile cube_header Q_example]>
  (<["u.fits" := FitsFile cube_header U]>
  (<["prediction.txt" := TextFile (row_of <$> two_channels)]> ∅)).

(** Q and U of different shapes. *)
Definition mismatched_world : world := World (sample_files U_wide) [] [].

(** Consistent inputs, and a file already at the path of the U output. *)
Definition occupied_world : world :=
  World (<["u_out.fits" := FitsFile cube_header U_wide]> (sample_files U_example))
        [cube_header] [].

(** ** Sample headers and cubes *)

Definition radec_freq : header :=
  [("NAXIS", VInt 3); ("CTYPE1", VStr "RA---SIN"); ("CTYPE2", VStr "DEC--SIN");
   ("CTYPE3", VStr "FREQ")].

Definition two_freq_axes : header :=
  [("NAXIS", VInt 4); ("CTYPE1", VStr "Freq"); ("CTYPE2", VStr "RA");
   ("CTYPE3", VStr "OBSFREQ"); ("CTYPE4", VInt 7)].

Definition no_ctype : header := [("NAXIS", VInt 3)].

Definition cube234 : ndarray nat :=
  NDArray [2; 3; 4] [12; 4; 1] (seq 0 24).

(** ** Vocabulary for further properties *)

Definition ascii_lower (c : ascii) : ascii :=
  let n := nat_of_ascii c in
  if ((65 <=? n)%nat && (n <=? 90)%nat)%bool then ascii_of_nat (n + 32) else c.

(** [s.lower()] on ASCII text. *)
Fixpoint str_lower (s : string) : string :=
  match s with
  | EmptyString => EmptyString
  | String c s' => String (ascii_lower c) (str_lower s')
  end.

Definition value_map_text (f : string → string) (v : value) : value :=
  match v with
  | VStr s => VStr (f s)
  | VInt _ | VBool _ | VFloat _ => v
  end.

(** A header with every string value rewritten by [f], keys kept. *)
Definition header_map_text (f : string → string) (h : header) : header :=
  (λ c : card, (c.1, value_map_text f c.2)) <$> h.

(** A float is not a number. *)
Definition fnan (x : float) : bool :=
  match Prim2SF x with
  | S754_nan => true
  | _ => false
  end.

(** A float is infinite. *)
Definition finf (x : float) : bool :=
  match Prim2SF x with
  | S754_infinity _ => true
  | _ => false
  end.

(** The array axis the pipeline treats as the channel axis: the detected
    FITS axis counted from the end, or axis 0 when none was detected. *)
Definition channel_axis (freq_axis N_dim : Z) : nat :=
  if bool_decide (freq_axis = 0%Z) then 0 else Z.to_nat (N_dim - freq_axis).

(** A cube pair with a blanked Q sample and an infinite U sample. *)
Definition Q_blanked : ndarray float := NDArray [2; 1; 1] [1; 1; 1] [nan; 1]%float.
Definition U_blanked : ndarray float := NDArray [2; 1; 1] [1; 1; 1] [0; infinity]%float.

(** A cube pair stored with the channels on the last array axis (FITS
    axis 1): three rows, one column, two channels. *)
Definition Q_native : ndarray float :=
  NDArray [3; 1; 2] [2; 2; 1] [1; 2; 3; 4; 5; 6]%float.
Definition U_native : ndarray float :=
  NDArray [3; 1; 2] [2; 2; 1] [6; 5; 4; 3; 2; 1]%float.

(** A header that puts the frequency on FITS axis 1, and a world holding
    the cube pair above with a two-channel prediction. *)
Definition native_header : header :=
  [("NAXIS", VInt 3); ("CTYPE1", VStr "FREQ"); ("CTYPE2", VStr "RA---SIN");
   ("CTYPE3", VStr "DEC--SIN")].

Definition native_world : world :=
  World (<["q.fits" := FitsFile native_header Q_native]>
        (<["u.fits" := FitsFile native_header U_native]>
        (<["prediction.txt" := TextFile (row_of <$> two_channels)]> ∅)))
        [] [].

(** A computation writes at most the files at [paths] and only adds to the
    call log. *)
Definition frames {A} (paths : list string) (m : io A) : Prop :=
  ∀ w, (∀ p, p ∉ paths → fs (m w).2 !! p = fs w !! p) ∧
       ∃ l, log (m w).2 = log w ++ l.

(** A computation leaves every file that exists as it is. *)
Definition keeps_files {A} (m : io A) : Prop :=
  ∀ w p f, fs w !! p = Some f → fs (m w).2 !! p = Some f.

(** A U cube of rank 2 beside a Q cube of rank 3. *)
Definition U_flat : ndarray float := NDArray [3; 2] [2; 1] [6; 5; 4; 3; 2; 1]%float.

Definition short_world : world :=
  World (<["q.fits" := FitsFile native_header Q_native]>
        (<["u.fits" := FitsFile native_header U_flat]> ∅))
        [] [].

(** ** The command line *)

(** The namespace [parser.parse_args()] returns: five positional arguments
    and the flag [-o]. *)
Record namespace := Namespace {
  fitsQ : string;
  fitsU : string;
  predictionfile : string;
  outQ : string;
  outU : string;
  overwrite : bool
}.

(** [os.path.isfile(path)] *)
Definition isfile (path : string) : io bool :=
  λ w, (Ok (bool_decide (is_Some (fs w !! path))), w).

(** [command_line] from line 222 on, given the parsed arguments. *)
Definition command_line `{Writer} (args : namespace) : io unit :=
  q_there ←! isfile (fitsQ args);
  if negb q_there then io_raise (Exception "Stokes Q file not found.")
  else
    u_there ←! isfile (fitsU args);
    if negb u_there then io_raise (Exception "Stokes U file not found.")
    else
      apply_correction_to_files (fitsQ args) (fitsU args) (predictionfile args)
        (outQ args) (outU args) (overwrite args).

(** The example cube over another layout: the unit axes carry other
    strides. *)
Definition Q_example_strided : ndarray float :=
  NDArray [2; 1; 1] [1; 5; 7] [1; 0]%float.


(** ** Headers with history, and a writer *)

(** A header with a HISTORY card in front of other cards. *)
Definition history_header : header :=
  [("NAXIS", VInt 3); ("CTYPE1", VStr "RA---SIN"); ("CTYPE2", VStr "DEC--SIN");
   ("HISTORY", VStr "Imaged."); ("CTYPE3", VStr "FREQ"); ("OBJECT", VStr "3C286")].

(** The same header with two blank cards at its end. *)
Definition padded_header : header :=
  history_header ++ [("", VStr ""); ("", VStr "")].

(** Consistent inputs under that header, and its object. *)
Definition history_world : world :=
  World (<["q.fits" := FitsFile history_header Q_example]>
        (<["u.fits" := FitsFile history_header U_example]>
        (<["prediction.txt" := TextFile (row_of <$> two_channels)]> ∅)))
        [history_header] [].

Definition is_structural (keyword : string) : bool :=
  String.prefix "NAXIS" keyword
  || bool_decide (keyword ∈ ["SIMPLE"; "BITPIX"; "EXTEND"]).

(** One writer, for the concrete inputs: the structural cards of a binary64
    image, then the cards handed over that are not structural. *)
Definition float64_writer : Writer :=
  λ h data,
    [("SIMPLE", VBool true); ("BITPIX", VInt (-64));
     ("NAXIS", VInt (Z.of_nat (length (shape data))))]
    ++ imap (λ i n, ("NAXIS" +:+ str (Z.of_nat (S i)), VInt (Z.of_nat n)))
            (reverse (shape data))
    ++ filter (λ c : card, is_structural c.1 = false) h.
(** * Properties *)

(** ** Frequency-axis detection *)

Lemma scan_axis_spec (h : header) (acc i : Z) :
  scan_axis h acc i = if axis_is_freq h i then i else acc.
Proof.
  unfold scan_axis, ctype_has_freq, axis_is_freq, header_getitem.
  destruct (header_find _ h) as [[n|b|x|s]|]; simpl; try reflexivity.
Qed.

Lemma py_range_S (a : Z) (m : nat) :
  py_range a (a + Z.of_nat (S m)) = py_range a (a + Z.of_nat m) ++ [(a + Z.of_nat m)%Z].
Proof.
  unfold py_range.
  replace (Z.to_nat (a + Z.of_nat (S m) - a)) with (S m) by lia.
  replace (Z.to_nat (a + Z.of_nat m - a)) with m by lia.
  rewrite seq_S, fmap_app. reflexivity.
Qed.

Lemma scan_range (h : header) (m : nat) :
  let r := fold_left (scan_axis h) (py_range 1 (1 + Z.of_nat m)) 0%Z in
  (0 ≤ r ≤ Z.of_nat m)%Z ∧
  (r = 0%Z → ∀ i, (1 ≤ i ≤ Z.of_nat m)%Z → axis_is_freq h i = false) ∧
  (r ≠ 0%Z → axis_is_freq h r = true ∧
             ∀ j, (r < j ≤ Z.of_nat m)%Z → axis_is_freq h j = false).
Proof.
  induction m as [|m IH].
  - simpl. repeat split; intros; lia.
  - cbv zeta in *. rewrite py_range_S, fold_left_app. simpl fold_left.
    rewrite scan_axis_spec.
    set (r := fold_left _ _ _) in *.
    destruct IH as (Hr & H0 & H1).
    destruct (axis_is_freq h (1 + Z.of_nat m)) eqn:E.
    + split; [lia|]. split; [lia|]. intros _. split; [exact E|]. intros; lia.
    + split; [lia|]. split.
      * intros Hz i Hi.
        destruct (decide (i = (1 + Z.of_nat m)%Z)) as [->|Hne]; [exact E|].
        apply H0; [exact Hz | lia].
      * intros Hnz. destruct (H1 Hnz) as [Hm Hafter]. split; [exact Hm|].
        intros j Hj.
        destruct (decide (j = (1 + Z.of_nat m)%Z)) as [->|Hne]; [exact E|].
        apply Hafter. lia.
Qed.

(** C3. [find_freq_axis] scans the axes 1..NAXIS and never fails on a type
    label: with an integer NAXIS = n it returns some r in 0..n; r = 0 exactly
    when no axis in 1..n has a label that contains FREQ once upper-cased, and
    otherwise r is the highest such axis (the last match wins).  Labels that
    are absent or are not strings count as no match.  RA/DEC/FREQ gives 3, a
    header with FREQ on axes 1 and 3 gives 3, a header with no labels gives 0. *)
Theorem find_freq_axis_last_match (h : header) (v : value) (n : Z) :
  header_find "NAXIS" h = Some v →
  value_index v = Ok n →
  ∃ r, find_freq_axis h = Ok r ∧
    (0 ≤ r ≤ Z.max 0 n)%Z ∧
    (r = 0%Z → ∀ i, (1 ≤ i ≤ n)%Z → axis_is_freq h i = false) ∧
    (r ≠ 0%Z → axis_is_freq h r = true ∧
               ∀ j, (r < j ≤ n)%Z → axis_is_freq h j = false) ∧
    find_freq_axis radec_freq = Ok 3%Z ∧
    find_freq_axis two_freq_axes = Ok 3%Z ∧
    find_freq_axis no_ctype = Ok 0%Z.
Proof.
  intros Hn Hv. unfold find_freq_axis, header_getitem at 1.
  rewrite Hn. simpl. rewrite Hv. simpl.
  eexists. split; [reflexivity|].
  assert (Hrange : py_range 1 (n + 1) = py_range 1 (1 + Z.of_nat (Z.to_nat n))).
  { unfold py_range. f_equal. f_equal. lia. }
  rewrite Hrange.
  destruct (scan_range h (Z.to_nat n)) as (Hr & H0 & H1).
  set (r := fold_left _ _ _) in *.
  split; [lia|]. split; [|split].
  - intros Hz i Hi. apply H0; [exact Hz | lia].
  - intros Hnz. destruct (H1 Hnz) as [Hm Hafter]. split; [exact Hm|].
    intros j Hj. apply Hafter. lia.
  - repeat split; vm_compute; reflexivity.
Qed.

Lemma find_freq_axis_last_match_witness :
  ∃ r, find_freq_axis two_freq_axes = Ok r ∧
    (0 ≤ r ≤ Z.max 0 4)%Z ∧
    (r = 0%Z → ∀ i, (1 ≤ i ≤ 4)%Z → axis_is_freq two_freq_axes i = false) ∧
    (r ≠ 0%Z → axis_is_freq two_freq_axes r = true ∧
               ∀ j, (r < j ≤ 4)%Z → axis_is_freq two_freq_axes j = false) ∧
    find_freq_axis radec_freq = Ok 3%Z ∧
    find_freq_axis two_freq_axes = Ok 3%Z ∧
    find_freq_axis no_ctype = Ok 0%Z.
Proof.
  apply (find_freq_axis_last_match two_freq_axes (VInt 4) 4); reflexivity.
Defined.

(** ** Axis permutations *)

Section permute.
Context {X : Type} (d : X).
Implicit Types l : list X.

Lemma permute_app l (o1 o2 : list nat) :
  permute d l (o1 ++ o2) = permute d l o1 ++ permute d l o2.
Proof. apply fmap_app. Qed.

Lemma permute_cons l (i : nat) (o : list nat) :
  permute d l (i :: o) = nth i l d :: permute d l o.
Proof. reflexivity. Qed.

Lemma permute_length l (o : list nat) : length (permute d l o) = length o.
Proof. apply length_fmap. Qed.

Lemma permute_seq l (a k : nat) :
  a + k ≤ length l → permute d l (seq a k) = take k (drop a l).
Proof.
  revert a l. induction k as [|k IH]; intros a l Hlen; [reflexivity|].
  simpl seq. unfold permute in *. rewrite fmap_cons, IH by lia.
  destruct (drop a l) as [|x l'] eqn:E.
  { apply (f_equal length) in E. rewrite length_drop in E. simpl in E. lia. }
  simpl. f_equal.
  - rewrite nth_lookup, <- (Nat.add_0_r a), <- lookup_drop, E. reflexivity.
  - f_equal. replace (S a) with (1 + a) by lia.
    rewrite Nat.add_comm, <- drop_drop, E. reflexivity.
Qed.

Lemma permute_id l : permute d l (seq 0 (length l)) = l.
Proof. rewrite permute_seq by lia. simpl. apply firstn_all. Qed.

End permute.

Lemma filter_ne_seq (n src : nat) :
  src < n →
  filter (λ k, k ≠ src) (seq 0 n) = seq 0 src ++ seq (S src) (n - S src).
Proof.
  intros Hlt.
  assert (Hkeep : ∀ j m, (src < j ∨ j + m ≤ src) →
            filter (λ k, k ≠ src) (seq j m) = seq j m).
  { intros j m. revert j. induction m as [|m IH]; intros j Hj; [reflexivity|].
    simpl seq. rewrite filter_cons_True by lia. f_equal. apply IH. lia. }
  replace n with (src + S (n - S src)) at 1 by lia.
  rewrite seq_app, filter_app. simpl seq.
  rewrite filter_cons_False by lia.
  rewrite !Hkeep by lia. reflexivity.
Qed.

(** Moving axis [src] to the front: [src] first, the others in their order. *)
Lemma moveaxis_order_to_front (n src : nat) :
  src < n →
  moveaxis_order n src 0 = src :: (seq 0 src ++ seq (S src) (n - S src)).
Proof.
  intros Hlt. unfold moveaxis_order, list_insert_at.
  rewrite filter_ne_seq by exact Hlt. reflexivity.
Qed.

(** Moving the front axis to position [dst]. *)
Lemma moveaxis_order_from_front (n dst : nat) :
  dst < n →
  moveaxis_order n 0 dst = seq 1 dst ++ 0 :: seq (S dst) (n - S dst).
Proof.
  intros Hlt. unfold moveaxis_order, list_insert_at.
  rewrite (filter_ne_seq n 0) by lia. simpl app.
  rewrite take_seq, drop_seq.
  replace (dst `min` (n - 1)) with dst by lia.
  replace (n - 1 - dst) with (n - S dst) by lia. reflexivity.
Qed.

Lemma permute_to_front {X} (d : X) (l : list X) (src : nat) :
  src < length l →
  permute d l (moveaxis_order (length l) src 0)
  = nth src l d :: (take src l ++ drop (S src) l).
Proof.
  intros Hlt. rewrite moveaxis_order_to_front by exact Hlt.
  rewrite permute_cons, permute_app, !permute_seq by lia. simpl drop at 1.
  f_equal. f_equal. rewrite <- length_drop. apply firstn_all.
Qed.

Lemma permute_roundtrip {X} (d : X) (l : list X) (src : nat) :
  src < length l →
  permute d (permute d l (moveaxis_order (length l) src 0))
            (moveaxis_order (length l) 0 src) = l.
Proof.
  intros Hlt. rewrite permute_to_front by exact Hlt.
  rewrite moveaxis_order_from_front by exact Hlt.
  set (m := take src l ++ drop (S src) l).
  assert (Hm : length m = length l - 1).
  { unfold m. rewrite length_app, length_take, length_drop. lia. }
  rewrite permute_app, permute_cons, !permute_seq by (simpl; lia). simpl.
  assert (Htake : take src m = take src l).
  { unfold m. rewrite take_app_le by (rewrite length_take; lia).
    rewrite take_take. f_equal. lia. }
  assert (Hdrop : take (length l - S src) (drop src m) = drop (S src) l).
  { unfold m. rewrite drop_app_length' by (rewrite length_take; lia).
    rewrite <- length_drop. apply firstn_all. }
  change (drop 0 m) with m. rewrite Htake, Hdrop.
  apply take_drop_middle.
  rewrite nth_lookup. destruct (lookup_lt_is_Some_2 l src Hlt) as [x ->]. reflexivity.
Qed.

Lemma transpose_id {T} (A : ndarray T) :
  length (strides A) = ndim A → transpose A (seq 0 (ndim A)) = A.
Proof.
  intros Hst. unfold transpose, ndim in *. rewrite permute_id.
  rewrite <- Hst, permute_id. destruct A; reflexivity.
Qed.

Lemma normalize_axis_index_nat (k nd : nat) :
  k < nd → normalize_axis_index (Z.of_nat k) nd = Ok k.
Proof.
  intros Hlt. unfold normalize_axis_index.
  rewrite (proj2 (andb_true_iff _ _)) by (split; [apply Z.leb_le | apply Z.ltb_lt]; lia).
  rewrite (proj2 (Z.ltb_ge _ _)) by lia. rewrite Nat2Z.id. reflexivity.
Qed.

Lemma moveaxis_nat {T} (A : ndarray T) (src dst : nat) :
  src < ndim A → dst < ndim A →
  moveaxis A (Z.of_nat src) (Z.of_nat dst)
  = Ok (transpose A (moveaxis_order (ndim A) src dst)).
Proof.
  intros Hs Hd. unfold moveaxis.
  rewrite !normalize_axis_index_nat by assumption. reflexivity.
Qed.

Lemma transpose_roundtrip {T} (A : ndarray T) (src : nat) :
  length (strides A) = ndim A → src < ndim A →
  transpose (transpose A (moveaxis_order (ndim A) src 0))
            (moveaxis_order (ndim A) 0 src) = A.
Proof.
  intros Hst Hlt. unfold transpose, ndim in *. cbn [shape strides buf].
  rewrite permute_roundtrip by exact Hlt.
  rewrite <- Hst. rewrite permute_roundtrip by lia.
  destruct A; reflexivity.
Qed.

Lemma ndim_transpose {T} (A : ndarray T) (o : list nat) :
  ndim (transpose A o) = length o.
Proof. unfold ndim, transpose. simpl. apply permute_length. Qed.

Lemma length_moveaxis_order (n src dst : nat) :
  src < n → length (moveaxis_order n src dst) = n.
Proof.
  intros Hlt. unfold moveaxis_order, list_insert_at.
  rewrite filter_ne_seq by exact Hlt.
  rewrite length_app. simpl. rewrite length_take, length_drop, length_app, !length_seq. lia.
Qed.

Lemma to_canonical_moves {T} (A : ndarray T) (ax : Z) :
  (0 < ax < Z.of_nat (ndim A))%Z →
  to_canonical A ax (Z.of_nat (ndim A))
  = Ok (transpose A (moveaxis_order (ndim A) (ndim A - Z.to_nat ax) 0)).
Proof.
  intros Hax. unfold to_canonical.
  rewrite bool_decide_eq_true_2 by lia.
  replace (Z.of_nat (ndim A) - ax)%Z with (Z.of_nat (ndim A - Z.to_nat ax)) by lia.
  apply (moveaxis_nat A _ 0); lia.
Qed.

Lemma to_native_moves {T} (A : ndarray T) (ax : Z) :
  (0 < ax ≤ Z.of_nat (ndim A))%Z →
  to_native A ax (Z.of_nat (ndim A))
  = Ok (transpose A (moveaxis_order (ndim A) 0 (ndim A - Z.to_nat ax))).
Proof.
  intros Hax. unfold to_native.
  rewrite bool_decide_eq_true_2 by lia.
  replace (Z.of_nat (ndim A) - ax)%Z with (Z.of_nat (ndim A - Z.to_nat ax)) by lia.
  apply (moveaxis_nat A 0); lia.
Qed.

Lemma moveaxis_front_front {T} (A : ndarray T) :
  length (strides A) = ndim A → 0 < ndim A → moveaxis A 0 0 = Ok A.
Proof.
  intros Hst Hpos. change (moveaxis A 0 0) with (moveaxis A (Z.of_nat 0) (Z.of_nat 0)).
  rewrite (moveaxis_nat A 0 0) by lia.
  rewrite moveaxis_order_to_front by lia. simpl app.
  change (0 :: seq 1 (ndim A - 1)) with (seq 0 (S (ndim A - 1))).
  replace (S (ndim A - 1)) with (ndim A) by lia.
  rewrite transpose_id by exact Hst. reflexivity.
Qed.

(** C1. Axis-order round trip.  For an array [A] of rank [N] and a detected
    frequency axis [ax] in 0..N, normalizing to the frequency-first layout
    and then restoring gives back [A] itself: the same shape, strides and
    buffer.  For [ax = 0] both directions return their argument; for
    [ax = N] normalization returns its argument and restoration is the move
    of axis 0 to position 0, which changes nothing. *)
Theorem axis_order_roundtrip {T} (A : ndarray T) (ax N : Z) :
  Z.of_nat (ndim A) = N →
  length (strides A) = ndim A →
  (0 ≤ ax ≤ N)%Z →
  (B ←? to_canonical A ax N; to_native B ax N) = Ok A ∧
  (ax = 0%Z → to_canonical A ax N = Ok A ∧ to_native A ax N = Ok A) ∧
  (ax = N → to_canonical A ax N = Ok A ∧
            (ax ≠ 0%Z → to_native A ax N = moveaxis A 0 0 ∧ moveaxis A 0 0 = Ok A)).
Proof.
  intros <- Hst Hax.
  assert (Hzero : ax = 0%Z → to_canonical A ax (Z.of_nat (ndim A)) = Ok A ∧
                            to_native A ax (Z.of_nat (ndim A)) = Ok A).
  { intros ->. split; reflexivity. }
  assert (Hlast : ax = Z.of_nat (ndim A) →
            to_canonical A ax (Z.of_nat (ndim A)) = Ok A ∧
            (ax ≠ 0%Z → to_native A ax (Z.of_nat (ndim A)) = moveaxis A 0 0 ∧
                        moveaxis A 0 0 = Ok A)).
  { intros ->. split.
    - unfold to_canonical. rewrite bool_decide_eq_false_2 by lia. reflexivity.
    - intros Hne. split.
      + unfold to_native. rewrite bool_decide_eq_true_2 by exact Hne.
        rewrite Z.sub_diag. reflexivity.
      + apply moveaxis_front_front; [exact Hst | lia]. }
  split; [|split; assumption].
  destruct (decide (ax = 0%Z)) as [E0|Hne0].
  { destruct (Hzero E0) as [-> Hn]. exact Hn. }
  destruct (decide (ax = Z.of_nat (ndim A))) as [EN|HneN].
  { destruct (Hlast EN) as [-> Hn]. simpl. destruct (Hn Hne0) as [-> ->]. reflexivity. }
  rewrite to_canonical_moves by lia. simpl.
  set (src := ndim A - Z.to_nat ax).
  set (B := transpose A (moveaxis_order (ndim A) src 0)).
  assert (HB : ndim B = ndim A).
  { unfold B. rewrite ndim_transpose. apply length_moveaxis_order. unfold src. lia. }
  rewrite <- HB at 1. rewrite to_native_moves by lia.
  rewrite HB. fold src. unfold B.
  rewrite transpose_roundtrip; [reflexivity | exact Hst | unfold src; lia].
Qed.

Lemma axis_order_roundtrip_witness :
  (B ←? to_canonical cube234 1 3; to_native B 1 3) = Ok cube234 ∧
  (1%Z = 0%Z → to_canonical cube234 1 3 = Ok cube234 ∧ to_native cube234 1 3 = Ok cube234) ∧
  (1%Z = 3%Z → to_canonical cube234 1 3 = Ok cube234 ∧
            (1%Z ≠ 0%Z → to_native cube234 1 3 = moveaxis cube234 0 0 ∧
                         moveaxis cube234 0 0 = Ok cube234)).
Proof.
  apply (axis_order_roundtrip cube234 1 3); [reflexivity | reflexivity | lia].
Defined.

Lemma offset_app (st1 st2 i1 i2 : list nat) :
  length st1 = length i1 →
  offset (st1 ++ st2) (i1 ++ i2) = offset st1 i1 + offset st2 i2.
Proof.
  revert i1. induction st1 as [|s st1 IH]; intros [|i i1] Hlen; simpl in *; try lia.
  rewrite IH by lia. lia.
Qed.

Lemma offset_to_front (st idx : list nat) (src i : nat) :
  src < length st → length idx = length st - 1 →
  offset (nth src st 0 :: (take src st ++ drop (S src) st)) (i :: idx)
  = offset st (take src idx ++ i :: drop src idx).
Proof.
  intros Hlt Hlen.
  assert (Hst : st = take src st ++ nth src st 0 :: drop (S src) st).
  { symmetry. apply take_drop_middle. rewrite nth_lookup.
    destruct (lookup_lt_is_Some_2 st src Hlt) as [x ->]. reflexivity. }
  rewrite Hst at 4.
  rewrite offset_app by (rewrite !length_take; lia).
  rewrite <- (take_drop src idx) at 1.
  simpl. rewrite offset_app by (rewrite !length_take; lia). lia.
Qed.

(** C9. Canonical layout.  For an array of rank [N] and a detected frequency
    axis [ax] in 1..N (array axis [N - ax], as the FITS numbering is the
    reverse of the array's), normalization yields the view whose axis 0 is
    that axis and whose remaining axes are the other axes of [A] in their
    original order: the axis order is [src] followed by 0..src-1 and
    src+1..N-1, and the element at [i :: idx] is the element of [A] at the
    index with [i] put back in at position [src]. *)
Theorem canonical_layout {T} `{Inhabited T} (A : ndarray T) (ax N : Z) :
  Z.of_nat (ndim A) = N →
  length (strides A) = ndim A →
  (1 ≤ ax ≤ N)%Z →
  let src := Z.to_nat (N - ax) in
  ∃ B, to_canonical A ax N = Ok B ∧
    B = transpose A (src :: (seq 0 src ++ seq (S src) (ndim A - S src))) ∧
    shape B = nth src (shape A) 0 :: (take src (shape A) ++ drop (S src) (shape A)) ∧
    ∀ i idx, length idx = ndim A - 1 →
      get B (i :: idx) = get A (take src idx ++ i :: drop src idx).
Proof.
  intros <- Hst Hax src.
  assert (Hsrc : src < ndim A) by (unfold src; lia).
  assert (Hcan : to_canonical A ax (Z.of_nat (ndim A))
                 = Ok (transpose A (moveaxis_order (ndim A) src 0))).
  { destruct (decide (ax = Z.of_nat (ndim A))) as [->|Hne].
    - unfold to_canonical. rewrite bool_decide_eq_false_2 by lia.
      assert (src = 0) as -> by (unfold src; lia).
      rewrite moveaxis_order_to_front by lia. simpl app.
      change (0 :: seq 1 (ndim A - 1)) with (seq 0 (S (ndim A - 1))).
      replace (S (ndim A - 1)) with (ndim A) by lia.
      rewrite transpose_id by exact Hst. reflexivity.
    - rewrite to_canonical_moves by lia. do 3 f_equal. unfold src. lia. }
  eexists. split; [exact Hcan|].
  rewrite moveaxis_order_to_front by exact Hsrc.
  split; [reflexivity|].
  rewrite <- moveaxis_order_to_front by exact Hsrc.
  unfold transpose, get, ndim in *. cbn [shape strides buf].
  rewrite !permute_to_front by lia. split; [reflexivity|].
  intros i idx Hlen. rewrite <- Hst, permute_to_front by lia.
  rewrite offset_to_front by lia. reflexivity.
Qed.

Lemma canonical_layout_witness :
  let src := Z.to_nat (3 - 1) in
  ∃ B, to_canonical cube234 1 3 = Ok B ∧
    B = transpose cube234 (src :: (seq 0 src ++ seq (S src) (ndim cube234 - S src))) ∧
    shape B = nth src (shape cube234) 0
              :: (take src (shape cube234) ++ drop (S src) (shape cube234)) ∧
    ∀ i idx, length idx = ndim cube234 - 1 →
      get B (i :: idx) = get cube234 (take src idx ++ i :: drop src idx).
Proof.
  apply (canonical_layout cube234 1 3); [reflexivity | reflexivity | lia].
Defined.

(** ** Fresh arrays and broadcasting *)

Lemma length_indices (s : list nat) : length (indices s) = size_of s.
Proof.
  induction s as [|n s IH]; [reflexivity|].
  simpl indices. simpl size_of.
  generalize 0. induction n as [|n IHn]; intros j; [reflexivity|].
  simpl seq. rewrite bind_cons, length_app, length_fmap, IH, IHn. simpl. lia.
Qed.

Lemma offset_c_strides_lt (s idx : list nat) :
  in_range idx s → offset (c_strides s) idx < size_of s.
Proof.
  intros Hin. induction Hin as [|i n idx s Hlt Hin IH]; simpl; [lia|].
  fold (size_of s). nia.
Qed.

Lemma lookup_bind_block {X Y} (g : X → list Y) (l : list X) (m i j : nat) :
  (∀ x, length (g x) = m) → j < m →
  (l ≫= g) !! (i * m + j) = l !! i ≫= λ x, g x !! j.
Proof.
  intros Hg Hj. revert i. induction l as [|x l IH]; intros i.
  - change ([] ≫= g) with (@nil Y). rewrite !lookup_nil. reflexivity.
  - rewrite bind_cons. destruct i as [|i].
    + simpl. rewrite lookup_app_l by (rewrite Hg; lia). reflexivity.
    + rewrite lookup_app_r by (rewrite Hg; lia).
      replace (S i * m + j - length (g x)) with (i * m + j) by (rewrite Hg; lia).
      rewrite IH. reflexivity.
Qed.

Lemma lookup_indices (s idx : list nat) :
  in_range idx s → indices s !! offset (c_strides s) idx = Some idx.
Proof.
  intros Hin. induction Hin as [|i n idx s Hlt Hin IH]; [reflexivity|].
  simpl indices. simpl c_strides. simpl offset.
  rewrite (lookup_bind_block _ _ (size_of s)).
  - rewrite lookup_seq_lt by exact Hlt. simpl.
    rewrite list_lookup_fmap, IH. reflexivity.
  - intros x. rewrite length_fmap. apply length_indices.
  - apply offset_c_strides_lt. exact Hin.
Qed.

Lemma get_from_fun {T} `{Inhabited T} (s : list nat) (f : list nat → T) (idx : list nat) :
  in_range idx s → get (from_fun s f) idx = f idx.
Proof.
  intros Hin. unfold get, from_fun. cbn [shape strides buf].
  rewrite nth_lookup, list_lookup_fmap, lookup_indices by exact Hin. reflexivity.
Qed.

Lemma shape_from_fun {T} (s : list nat) (f : list nat → T) : shape (from_fun s f) = s.
Proof. reflexivity. Qed.

Lemma amap_from_fun {T U} (g : T → U) (s : list nat) (f : list nat → T) :
  amap g (from_fun s f) = from_fun s (g ∘ f).
Proof. unfold amap, from_fun. cbn [shape strides buf]. rewrite <- list_fmap_compose. reflexivity. Qed.

Lemma length_c_strides (s : list nat) : length (c_strides s) = length s.
Proof. induction s; simpl; congruence. Qed.

Lemma broadcast_dims_same (s : list nat) : broadcast_dims s s = Ok s.
Proof.
  induction s as [|a s IH]; [reflexivity|].
  simpl. unfold broadcast_dim. rewrite Nat.eqb_refl. simpl. rewrite IH. reflexivity.
Qed.

Lemma broadcast_dim_one (a : nat) : broadcast_dim a 1 = Ok a.
Proof.
  unfold broadcast_dim. destruct (a =? 1) eqn:E; [reflexivity|]. reflexivity.
Qed.

Lemma broadcast_dims_ones (s : list nat) :
  broadcast_dims s (replicate (length s) 1) = Ok s.
Proof.
  induction s as [|a s IH]; [reflexivity|].
  simpl. rewrite broadcast_dim_one. simpl. rewrite IH. reflexivity.
Qed.

Lemma pad_shape_same (s : list nat) : pad_shape (length s) s = s.
Proof. unfold pad_shape. rewrite Nat.sub_diag. reflexivity. Qed.

Lemma broadcast_shapes_same (s : list nat) : broadcast_shapes s s = Ok s.
Proof.
  unfold broadcast_shapes. rewrite Nat.max_id, pad_shape_same.
  apply broadcast_dims_same.
Qed.

Lemma broadcast_shapes_channel (n : nat) (s : list nat) :
  broadcast_shapes (n :: s) (n :: replicate (length s) 1) = Ok (n :: s).
Proof.
  unfold broadcast_shapes, pad_shape. simpl length.
  rewrite length_replicate, Nat.max_id, Nat.sub_diag. simpl.
  unfold broadcast_dim. rewrite Nat.eqb_refl. simpl.
  rewrite broadcast_dims_ones. reflexivity.
Qed.

Lemma broadcast_strides_same (sh st : list nat) :
  length st = length sh → broadcast_strides sh st sh = st.
Proof.
  revert st. induction sh as [|a sh IH]; intros [|x st] Hlen; simpl in *; try lia.
  - reflexivity.
  - rewrite Nat.eqb_refl, IH by lia. reflexivity.
Qed.

Lemma broadcast_to_same {T} (A : ndarray T) :
  length (strides A) = ndim A → broadcast_to A (shape A) = A.
Proof.
  intros Hst. unfold broadcast_to, ndim in *. rewrite Nat.sub_diag. simpl.
  rewrite broadcast_strides_same by exact Hst. destruct A; reflexivity.
Qed.

Lemma c_strides_ones (k : nat) : c_strides (replicate k 1) = replicate k 1.
Proof.
  induction k as [|k IH]; [reflexivity|]. simpl. rewrite IH. f_equal.
  clear IH. induction k as [|k IH]; simpl; [reflexivity|]. fold (size_of (replicate k 1)). lia.
Qed.

Lemma size_of_ones (k : nat) : size_of (replicate k 1) = 1.
Proof. induction k as [|k IH]; simpl; [reflexivity|]. fold (size_of (replicate k 1)). lia. Qed.

Lemma offset_stretched (s idx : list nat) :
  in_range idx s →
  offset (broadcast_strides (replicate (length s) 1) (replicate (length s) 1) s) idx = 0.
Proof.
  intros Hin. induction Hin as [|i n idx s Hlt Hin IH]; [reflexivity|].
  simpl. rewrite IH. destruct n as [|[|n]]; simpl; lia.
Qed.

(** ** The correction engine *)

Lemma ravel_1d {T} `{Inhabited T} (theta : ndarray T) (n i : nat) :
  shape theta = [n] → i < n → nth i (ravel theta) inhabitant = get theta [i].
Proof.
  intros Hsh Hi. unfold ravel. rewrite Hsh.
  assert (Hidx : indices [n] !! i = Some [i]).
  { replace i with (offset (c_strides [n]) [i]) at 1 by (simpl; lia).
    apply lookup_indices. repeat constructor. exact Hi. }
  rewrite nth_lookup, list_lookup_fmap, Hidx. reflexivity.
Qed.

(** The prediction reshaped to one channel axis and unit axes, and read at
    the cube's shape: every sample of channel [i] meets [theta[i]]. *)
Lemma theta_broadcast {T} `{Inhabited T} (theta : ndarray T) (n : nat) (s : list nat) :
  shape theta = [n] →
  ∃ theta_b,
    reshape theta (size_of (shape theta) :: replicate (length s) 1) = Ok theta_b ∧
    shape theta_b = n :: replicate (length s) 1 ∧
    ∀ i rest, in_range (i :: rest) (n :: s) →
      get (broadcast_to theta_b (n :: s)) (i :: rest) = get theta [i].
Proof.
  intros Hsh. unfold reshape. rewrite Hsh.
  assert (Hn : size_of [n] = n) by (simpl; lia). rewrite Hn.
  assert (Hsz : size_of (n :: replicate (length s) 1) = n).
  { simpl. fold (size_of (replicate (length s) 1)). rewrite size_of_ones. lia. }
  rewrite Hsz, Nat.eqb_refl.
  eexists. split; [reflexivity|]. split; [reflexivity|].
  intros i rest Hin. inversion Hin as [|? ? ? ? Hi Hrest]; subst.
  unfold get, broadcast_to, ndim. cbn [shape strides buf].
  simpl length. rewrite length_replicate, Nat.sub_diag.
  simpl. rewrite Nat.eqb_refl. fold (size_of (replicate (length s) 1)).
  rewrite size_of_ones, c_strides_ones. simpl.
  rewrite offset_stretched by exact Hrest.
  replace (i * 1 + 0) with i by lia.
  apply (ravel_1d theta n); [exact Hsh | exact Hi].
Qed.

Section engine.
Variables (Qdata Udata : ndarray float) (theta : ndarray complex).
Variables (n : nat) (s : list nat).
Hypothesis Q_shape : shape Qdata = n :: s.
Hypothesis U_shape : shape Udata = n :: s.
Hypothesis Q_strides : length (strides Qdata) = ndim Qdata.
Hypothesis theta_shape : shape theta = [n].

Lemma correct_cubes_run :
  ∃ Pcorr,
    correct_cubes Qdata Udata theta = Ok (amap re Pcorr, amap im Pcorr) ∧
    shape Pcorr = n :: s ∧
    ∀ i rest, in_range (i :: rest) (n :: s) →
      get (amap re Pcorr) (i :: rest)
        = re (cdiv (polarization Qdata Udata (i :: rest)) (get theta [i])) ∧
      get (amap im Pcorr) (i :: rest)
        = im (cdiv (polarization Qdata Udata (i :: rest)) (get theta [i])).
Proof.
  destruct (theta_broadcast theta n s theta_shape) as (tb & Hresh & Htb & Hget).
  unfold correct_cubes, ufunc2, ufunc1.
  rewrite shape_from_fun, Q_shape, U_shape, broadcast_shapes_same.
  cbn [rbind]. rewrite shape_from_fun. cbn [rbind]. rewrite Hresh. cbn [rbind].
  rewrite Htb, broadcast_shapes_channel. cbn [rbind].
  eexists. split; [reflexivity|]. split; [reflexivity|].
  intros i rest Hin.
  rewrite !amap_from_fun, !get_from_fun by exact Hin.
  unfold compose.
  set (P := from_fun (n :: s) _).
  assert (HP : broadcast_to P (n :: s) = P).
  { apply (broadcast_to_same P). unfold P, ndim. cbn [shape strides from_fun].
    apply length_c_strides. }
  rewrite HP, Hget by exact Hin.
  assert (HPget : get P (i :: rest) = polarization Qdata Udata (i :: rest)).
  { unfold P. rewrite get_from_fun by exact Hin.
    rewrite <- Q_shape at 1. rewrite broadcast_to_same by exact Q_strides.
    set (iU := from_fun (n :: s) _).
    assert (HiU : broadcast_to iU (n :: s) = iU).
    { apply (broadcast_to_same iU). unfold iU, ndim. cbn [shape strides from_fun].
      apply length_c_strides. }
    rewrite HiU. unfold iU. rewrite get_from_fun by exact Hin. reflexivity. }
  rewrite HPget. split; reflexivity.
Qed.

End engine.

(** C2. Elementwise correctness.  For same-shape cubes [Q], [U] with the
    channels on axis 0 and a 1-D [theta] with one entry per channel,
    [correct_cubes] succeeds; the prediction is reshaped to [theta.size] on
    axis 0 and 1 on every other axis of the cube's rank and, read at the
    cube's shape, gives [theta[i]] for every sample of channel [i]; the
    outputs at each index are the real and the imaginary part of
    [(Q + i*U) / theta[i]].  On Q=[1,0], U=[0,1], theta=[1, i] the outputs are
    [1,1] and [0,0]. *)
Theorem correct_cubes_elementwise
    (Qdata Udata : ndarray float) (theta : ndarray complex) (n : nat) (s : list nat) :
  shape Qdata = n :: s →
  shape Udata = n :: s →
  length (strides Qdata) = ndim Qdata →
  shape theta = [n] →
  (∃ theta_b,
     reshape theta (size_of (shape theta) :: replicate (length s) 1) = Ok theta_b ∧
     shape theta_b = n :: replicate (length s) 1 ∧
     ∀ i rest, in_range (i :: rest) (n :: s) →
       get (broadcast_to theta_b (n :: s)) (i :: rest) = get theta [i]) ∧
  (∃ Qcorr Ucorr,
     correct_cubes Qdata Udata theta = Ok (Qcorr, Ucorr) ∧
     ∀ i rest, in_range (i :: rest) (n :: s) →
       get Qcorr (i :: rest)
         = re (cdiv (polarization Qdata Udata (i :: rest)) (get theta [i])) ∧
       get Ucorr (i :: rest)
         = im (cdiv (polarization Qdata Udata (i :: rest)) (get theta [i]))) ∧
  correct_cubes Q_example U_example theta_example
    = Ok (NDArray [2; 1; 1] [1; 1; 1] [1; 1]%float,
          NDArray [2; 1; 1] [1; 1; 1] [0; 0]%float).
Proof.
  intros HQ HU HQs Hth. split; [|split].
  - apply theta_broadcast. exact Hth.
  - destruct (correct_cubes_run Qdata Udata theta n s HQ HU HQs Hth)
      as (Pcorr & Hrun & _ & Hget).
    exists (amap re Pcorr), (amap im Pcorr). split; [exact Hrun | exact Hget].
  - vm_compute. reflexivity.
Qed.

Lemma correct_cubes_elementwise_witness :
  (∃ theta_b,
     reshape theta_example (size_of (shape theta_example) :: replicate (length [1; 1]) 1)
       = Ok theta_b ∧
     shape theta_b = 2 :: replicate (length [1; 1]) 1 ∧
     ∀ i rest, in_range (i :: rest) [2; 1; 1] →
       get (broadcast_to theta_b [2; 1; 1]) (i :: rest) = get theta_example [i]) ∧
  (∃ Qcorr Ucorr,
     correct_cubes Q_example U_example theta_example = Ok (Qcorr, Ucorr) ∧
     ∀ i rest, in_range (i :: rest) [2; 1; 1] →
       get Qcorr (i :: rest)
         = re (cdiv (polarization Q_example U_example (i :: rest)) (get theta_example [i])) ∧
       get Ucorr (i :: rest)
         = im (cdiv (polarization Q_example U_example (i :: rest)) (get theta_example [i]))) ∧
  correct_cubes Q_example U_example theta_example
    = Ok (NDArray [2; 1; 1] [1; 1; 1] [1; 1]%float,
          NDArray [2; 1; 1] [1; 1; 1] [0; 0]%float).
Proof.
  apply (correct_cubes_elementwise Q_example U_example theta_example 2 [1; 1]);
    reflexivity.
Defined.

(** C7. Shape preservation.  For same-shape cubes with the channels on
    axis 0 and a 1-D [theta] with one entry per channel, [correct_cubes]
    returns two arrays of the shape of [Q] and [U]. *)
Theorem correct_cubes_shape
    (Qdata Udata : ndarray float) (theta : ndarray complex) (n : nat) (s : list nat) :
  shape Qdata = n :: s →
  shape Udata = shape Qdata →
  length (strides Qdata) = ndim Qdata →
  shape theta = [n] →
  ∃ Qcorr Ucorr,
    correct_cubes Qdata Udata theta = Ok (Qcorr, Ucorr) ∧
    shape Qcorr = shape Qdata ∧ shape Ucorr = shape Udata.
Proof.
  intros HQ HU HQs Hth. rewrite HU, HQ. rewrite HQ in HU.
  destruct (correct_cubes_run Qdata Udata theta n s HQ HU HQs Hth)
    as (Pcorr & Hrun & Hsh & _).
  exists (amap re Pcorr), (amap im Pcorr).
  split; [exact Hrun|]. split; exact Hsh.
Qed.

Lemma correct_cubes_shape_witness :
  ∃ Qcorr Ucorr,
    correct_cubes Q_example U_example theta_example = Ok (Qcorr, Ucorr) ∧
    shape Qcorr = shape Q_example ∧ shape Ucorr = shape U_example.
Proof.
  apply (correct_cubes_shape Q_example U_example theta_example 2 [1; 1]); reflexivity.
Defined.

(** ** Zero modulation *)

Lemma float_eqb_zero (x : float) :
  (x =? 0)%float = true → ∃ sgn, Prim2SF x = S754_zero sgn.
Proof.
  rewrite FloatAxioms.eqb_spec. change (Prim2SF 0) with (S754_zero false).
  destruct (Prim2SF x) as [sgn|sgn| |sgn m e]; simpl; try discriminate.
  - intros _. exists sgn. reflexivity.
  - destruct sgn; discriminate.
  - destruct sgn; discriminate.
Qed.

Lemma float_abs_zero (x : float) : (x =? 0)%float = true → abs x = 0%float.
Proof.
  intros Hx. destruct (float_eqb_zero x Hx) as [sgn Hs].
  apply Prim2SF_inj. rewrite abs_spec, Hs. reflexivity.
Qed.

Lemma float_div_zero (x : float) : inf_or_nan (x / 0) = true.
Proof.
  unfold inf_or_nan. rewrite div_spec. change (Prim2SF 0) with (S754_zero false).
  destruct (Prim2SF x) as [sgn|sgn| |sgn m e]; reflexivity.
Qed.

(** Division by a complex zero: both components are divided by [+0]. *)
Lemma cdiv_zero (a b : complex) :
  czero b = true → cdiv a b = Complex (re a / 0) (im a / 0).
Proof.
  unfold czero. intros Hz. apply andb_true_iff in Hz as [Hr Hi].
  unfold cdiv. rewrite (float_abs_zero _ Hr), (float_abs_zero _ Hi). reflexivity.
Qed.

(** C6. Zero modulation.  For same-shape cubes and a matching 1-D [theta]
    with [theta[i] == 0], [correct_cubes] still returns; every output sample
    of channel [i] is the corresponding component of [Q + i*U] divided by
    zero, unaltered, and is infinite or NaN. *)
Theorem correct_cubes_zero_modulation
    (Qdata Udata : ndarray float) (theta : ndarray complex)
    (n : nat) (s : list nat) (i : nat) :
  shape Qdata = n :: s →
  shape Udata = n :: s →
  length (strides Qdata) = ndim Qdata →
  shape theta = [n] →
  czero (get theta [i]) = true →
  ∃ Qcorr Ucorr,
    correct_cubes Qdata Udata theta = Ok (Qcorr, Ucorr) ∧
    ∀ rest, in_range (i :: rest) (n :: s) →
      get Qcorr (i :: rest) = (re (polarization Qdata Udata (i :: rest)) / 0)%float ∧
      get Ucorr (i :: rest) = (im (polarization Qdata Udata (i :: rest)) / 0)%float ∧
      inf_or_nan (get Qcorr (i :: rest)) = true ∧
      inf_or_nan (get Ucorr (i :: rest)) = true.
Proof.
  intros HQ HU HQs Hth Hz.
  destruct (correct_cubes_run Qdata Udata theta n s HQ HU HQs Hth)
    as (Pcorr & Hrun & _ & Hget).
  exists (amap re Pcorr), (amap im Pcorr). split; [exact Hrun|].
  intros rest Hin. destruct (Hget i rest Hin) as [Hre Him].
  rewrite Hre, Him, (cdiv_zero _ _ Hz). cbn [re im].
  repeat split; apply float_div_zero.
Qed.

Lemma correct_cubes_zero_modulation_witness :
  ∃ Qcorr Ucorr,
    correct_cubes Q_example U_example theta_degenerate = Ok (Qcorr, Ucorr) ∧
    ∀ rest, in_range (1 :: rest) [2; 1; 1] →
      get Qcorr (1 :: rest) = (re (polarization Q_example U_example (1%nat :: rest)) / 0)%float ∧
      get Ucorr (1 :: rest) = (im (polarization Q_example U_example (1%nat :: rest)) / 0)%float ∧
      inf_or_nan (get Qcorr (1 :: rest)) = true ∧
      inf_or_nan (get Ucorr (1 :: rest)) = true.
Proof.
  apply (correct_cubes_zero_modulation Q_example U_example theta_degenerate 2 [1; 1] 1);
    reflexivity.
Defined.

(** ** The prediction loader *)

Lemma read_prediction_text (w : world) (path : string) (lines : list (list field)) :
  fs w !! path = Some (TextFile lines) →
  read_prediction path w = ((table ←? genfromtxt lines; load_table table), w).
Proof. intros Hf. unfold read_prediction. rewrite Hf. reflexivity. Qed.

Lemma load_table_ok (table : ndarray float) :
  is_ok (load_table table)
  = match shape table with [] => false | m :: _ => m =? 3 end.
Proof.
  unfold load_table, unpack3. destruct (shape table) as [|m sh]; [reflexivity|].
  destruct (m =? 3); [|reflexivity].
  cbn [rbind]. unfold ufunc2, ufunc1. rewrite shape_from_fun.
  cbn [shape subarray]. rewrite broadcast_shapes_same. reflexivity.
Qed.

Lemma genfromtxt_uniform (lines : list (list field)) (k : nat) :
  data_rows lines ≠ [] →
  Forall (λ r, length r = k) (data_rows lines) →
  genfromtxt lines
  = Ok (transposed (squeeze (NDArray [length (data_rows lines); k] [k; 1]
                               (field_value <$> concat (data_rows lines))))).
Proof.
  intros Hne Hall. unfold genfromtxt. fold (data_rows lines).
  destruct (data_rows lines) as [|first rest] eqn:E; [congruence|].
  assert (Hk : length first = k) by (inversion Hall; assumption).
  rewrite Hk.
  assert (Hfb : forallb (λ r, length r =? k) (first :: rest) = true).
  { apply forallb_forall. intros r Hr. apply Nat.eqb_eq.
    rewrite Forall_forall in Hall. apply Hall. apply list_elem_of_In. exact Hr. }
  rewrite Hfb. reflexivity.
Qed.

Lemma genfromtxt_ragged (lines : list (list field)) (r1 r2 : list field) :
  r1 ∈ data_rows lines → r2 ∈ data_rows lines → length r1 ≠ length r2 →
  genfromtxt lines = Raise ValueError.
Proof.
  intros H1 H2 Hne. unfold genfromtxt. fold (data_rows lines).
  destruct (data_rows lines) as [|first rest] eqn:E; [inversion H1|].
  destruct (forallb _ (first :: rest)) eqn:Hfb; [|reflexivity].
  exfalso. rewrite forallb_forall in Hfb.
  apply list_elem_of_In, Hfb, Nat.eqb_eq in H1.
  apply list_elem_of_In, Hfb, Nat.eqb_eq in H2. congruence.
Qed.

Lemma data_rows_nonblank (lines : list (list field)) (r : list field) :
  r ∈ data_rows lines → 0 < length r.
Proof.
  unfold data_rows. intros Hr. apply list_elem_of_filter in Hr as [Hne _].
  destruct r; [congruence | simpl; lia].
Qed.

Lemma table_shape_loads (n k : nat) (data : list float) :
  0 < n → 0 < k →
  is_ok (load_table (transposed (squeeze (NDArray [n; k] [k; 1] data))))
  = table_loads n k.
Proof.
  intros Hn Hk. rewrite load_table_ok. unfold table_loads, transposed, squeeze.
  cbn [shape strides buf squeeze_axes].
  destruct (n =? 1) eqn:En, (k =? 1) eqn:Ek;
    try (apply Nat.eqb_eq in En; subst n);
    try (apply Nat.eqb_eq in Ek; subst k);
    cbn; rewrite ?Ek, ?orb_false_r; reflexivity.
Qed.

Lemma lookup_concat_triples (triples : list (field * field * field))
    (i : nat) (a b c : field) :
  triples !! i = Some (a, b, c) →
  concat (row_of <$> triples) !! (i * 3) = Some a ∧
  concat (row_of <$> triples) !! (i * 3 + 1) = Some b ∧
  concat (row_of <$> triples) !! (i * 3 + 2) = Some c.
Proof.
  revert i. induction triples as [|[[a' b'] c'] triples IH]; intros i Hi.
  - rewrite lookup_nil in Hi. discriminate.
  - destruct i as [|i].
    + simpl in Hi. injection Hi as -> -> ->. repeat split; reflexivity.
    + simpl in Hi. destruct (IH i Hi) as (Ha & Hb & Hc).
      rewrite fmap_cons. simpl concat.
      replace (S i * 3) with (3 + i * 3) by lia.
      replace (3 + i * 3 + 1) with (3 + (i * 3 + 1)) by lia.
      replace (3 + i * 3 + 2) with (3 + (i * 3 + 2)) by lia.
      repeat split; assumption.
Qed.

Lemma forall_row_of (triples : list (field * field * field)) :
  Forall (λ r, length r = 3) (row_of <$> triples).
Proof.
  apply Forall_fmap, Forall_forall. intros [[a b] c] _. reflexivity.
Qed.

Lemma load_three_columns (triples : list (field * field * field)) :
  2 ≤ length triples →
  ∃ freq theta,
    load_table (transposed (squeeze
      (NDArray [length triples; 3] [3; 1]
               (field_value <$> concat (row_of <$> triples)))))
      = Ok (freq, theta) ∧
    shape freq = [length triples] ∧
    shape theta = [length triples] ∧
    ∀ i a b c, triples !! i = Some (a, b, c) →
      get freq [i] = field_value a ∧
      get theta [i]
        = cadd (of_real (field_value b)) (cmul imag_unit (of_real (field_value c))).
Proof.
  intros Hlen. set (n := length triples) in *.
  set (data := field_value <$> concat (row_of <$> triples)).
  assert (Hsq : transposed (squeeze (NDArray [n; 3] [3; 1] data))
                = NDArray [3; n] [1; 3] data).
  { unfold transposed, squeeze. cbn [shape strides buf squeeze_axes].
    destruct (n =? 1) eqn:En; [apply Nat.eqb_eq in En; lia|]. reflexivity. }
  rewrite Hsq. unfold load_table, unpack3. cbn [shape Nat.eqb rbind].
  unfold ufunc2, ufunc1. rewrite shape_from_fun. cbn [shape subarray tail].
  rewrite broadcast_shapes_same. cbn [rbind].
  eexists _, _. split; [reflexivity|]. split; [reflexivity|]. split; [reflexivity|].
  intros i a b c Hi.
  assert (Hin : in_range [i] [n]).
  { repeat constructor. apply lookup_lt_Some in Hi. exact Hi. }
  destruct (lookup_concat_triples triples i a b c Hi) as (Ha & Hb & Hc).
  assert (Hdata : ∀ j x, concat (row_of <$> triples) !! j = Some x →
                         nth j data 0%float = field_value x).
  { intros j x Hj. unfold data. rewrite nth_lookup, list_lookup_fmap, Hj. reflexivity. }
  unfold subarray. cbn [shape strides buf tail hd Nat.mul Nat.add drop].
  split.
  - unfold get. cbn [strides buf offset].
    replace (i * 3 + 0) with (i * 3) by lia. apply Hdata, Ha.
  - rewrite get_from_fun by exact Hin.
    set (real := NDArray [n] [3] _). set (iU := from_fun [n] _).
    assert (Hreal : broadcast_to real [n] = real)
      by (apply (broadcast_to_same real); reflexivity).
    assert (HiU : broadcast_to iU [n] = iU)
      by (apply (broadcast_to_same iU); reflexivity).
    rewrite Hreal, HiU. unfold iU. rewrite get_from_fun by exact Hin.
    unfold real, get. cbn [strides buf offset].
    rewrite !nth_lookup, !lookup_drop, <- !nth_lookup.
    replace (1 + (i * 3 + 0)) with (i * 3 + 1) by lia.
    replace (2 + (i * 3 + 0)) with (i * 3 + 2) by lia.
    change (@inhabitant float _) with 0%float.
    rewrite (Hdata _ _ Hb), (Hdata _ _ Hc). reflexivity.
Qed.

Lemma read_prediction_world (w : world) (path : string) :
  (read_prediction path w).2 = w.
Proof.
  unfold read_prediction. destruct (fs w !! path) as [[lines|hdr data]|]; reflexivity.
Qed.

(** C8, counterexample.  A table of three rows with one field each has rows
    that do not yield three numeric fields, and a two-row table has a field
    that is not a number; both load without an error. *)
Lemma read_prediction_accepts_other_tables :
  (∃ r, r ∈ one_column ∧ three_numeric r = false) ∧
  is_ok (read_prediction "prediction.txt"
           (disk_of "prediction.txt" (TextFile one_column))).1 = true ∧
  (∃ r, r ∈ with_word ∧ three_numeric r = false) ∧
  is_ok (read_prediction "prediction.txt"
           (disk_of "prediction.txt" (TextFile with_word))).1 = true.
Proof.
  split; [|split; [|split]].
  - exists [Num 1%float]. split; [left | reflexivity].
  - vm_compute. reflexivity.
  - exists [Num 1%float; Word "n/a"; Num 0%float]. split; [left | reflexivity].
  - vm_compute. reflexivity.
Qed.

(** C8, as amended.  [read_prediction] leaves the world as it is.  It fails
    when there is no file at the path, when the table has no data rows, and
    when two data rows differ in their number of fields.  When every one of
    the n data rows has k fields it succeeds exactly when k = 3, or k = 1 and
    n = 3; a field that is not a number is read as NaN, not rejected.  From
    n >= 2 rows of three fields it returns a frequency sequence and a complex
    sequence, both of length n, with [theta[i] = real[i] + i*imag[i]]. *)
Theorem read_prediction_contract (w : world) (path : string) :
  (read_prediction path w).2 = w ∧
  (fs w !! path = None → (read_prediction path w).1 = Raise OSError) ∧
  (∀ lines, fs w !! path = Some (TextFile lines) →
     (data_rows lines = [] → is_ok (read_prediction path w).1 = false) ∧
     (∀ r1 r2, r1 ∈ data_rows lines → r2 ∈ data_rows lines →
        length r1 ≠ length r2 →
        (read_prediction path w).1 = Raise ValueError) ∧
     (∀ k, data_rows lines ≠ [] →
        Forall (λ r, length r = k) (data_rows lines) →
        is_ok (read_prediction path w).1
        = table_loads (length (data_rows lines)) k) ∧
     (∀ triples, data_rows lines = row_of <$> triples →
        2 ≤ length triples →
        ∃ freq theta,
          (read_prediction path w).1 = Ok (freq, theta) ∧
          shape freq = [length triples] ∧
          shape theta = [length triples] ∧
          ∀ i a b c, triples !! i = Some (a, b, c) →
            get freq [i] = field_value a ∧
            get theta [i]
              = cadd (of_real (field_value b))
                     (cmul imag_unit (of_real (field_value c))))).
Proof.
  split; [|split].
  - apply read_prediction_world.
  - intros Hnone. unfold read_prediction. rewrite Hnone. reflexivity.
  - intros lines Hf. rewrite (read_prediction_text w path lines Hf). cbn [fst].
    split; [|split; [|split]].
    + intros Hempty. unfold genfromtxt. fold (data_rows lines). rewrite Hempty.
      reflexivity.
    + intros r1 r2 H1 H2 Hne. rewrite (genfromtxt_ragged lines r1 r2 H1 H2 Hne).
      reflexivity.
    + intros k Hne Hall. rewrite (genfromtxt_uniform lines k Hne Hall). cbn [rbind].
      apply table_shape_loads.
      * destruct (data_rows lines); [congruence | simpl; lia].
      * destruct (data_rows lines) as [|r rows] eqn:E; [congruence|].
        assert (Hr : r ∈ data_rows lines) by (rewrite E; left).
        apply data_rows_nonblank in Hr. inversion Hall; subst. exact Hr.
    + intros triples Hrows Hlen.
      assert (Hne : data_rows lines ≠ []).
      { rewrite Hrows. destruct triples; [simpl in Hlen; lia | discriminate]. }
      assert (Hall : Forall (λ r, length r = 3) (data_rows lines)).
      { rewrite Hrows. apply forall_row_of. }
      rewrite (genfromtxt_uniform lines 3 Hne Hall). cbn [rbind].
      rewrite Hrows, length_fmap. apply load_three_columns. exact Hlen.
Qed.

Lemma read_prediction_contract_witness :
  ∃ freq theta,
    (read_prediction "prediction.txt"
       (disk_of "prediction.txt" (TextFile (row_of <$> two_channels)))).1
      = Ok (freq, theta) ∧
    shape freq = [2] ∧ shape theta = [2] ∧
    ∀ i a b c, two_channels !! i = Some (a, b, c) →
      get freq [i] = field_value a ∧
      get theta [i]
        = cadd (of_real (field_value b)) (cmul imag_unit (of_real (field_value c))).
Proof.
  destruct (read_prediction_contract
              (disk_of "prediction.txt" (TextFile (row_of <$> two_channels)))
              "prediction.txt") as (_ & _ & Htext).
  destruct (Htext (row_of <$> two_channels) eq_refl) as (_ & _ & _ & Hload).
  apply (Hload two_channels); [reflexivity | simpl; lia].
Defined.

(** ** Effects of the I/O steps *)

Lemma same_disk_refl (w : world) : same_disk w w.
Proof. split; reflexivity. Qed.

Lemma same_disk_trans (w1 w2 w3 : world) :
  same_disk w1 w2 → same_disk w2 w3 → same_disk w1 w3.
Proof. intros [? ?] [? ?]. split; congruence. Qed.

Lemma io_bind_raise {A B} (m : io A) (k : A → io B) (w w' : world) (e : exn) :
  m w = (Raise e, w') → io_bind m k w = (Raise e, w').
Proof. intros Hm. unfold io_bind. rewrite Hm. reflexivity. Qed.

Lemma io_bind_ok {A B} (m : io A) (k : A → io B) (w w' : world) (a : A) :
  m w = (Ok a, w') → io_bind m k w = k a w'.
Proof. intros Hm. unfold io_bind. rewrite Hm. reflexivity. Qed.

Lemma silent_ret {A} (a : A) : disk_silent (io_ret a).
Proof. intros w. apply same_disk_refl. Qed.

Lemma silent_raise {A} (e : exn) : disk_silent (@io_raise A e).
Proof. intros w. apply same_disk_refl. Qed.

Lemma silent_lift {A} (r : result A) : disk_silent (io_lift r).
Proof. intros w. apply same_disk_refl. Qed.

Lemma silent_bind {A B} (m : io A) (k : A → io B) :
  disk_silent m → (∀ a, disk_silent (k a)) → disk_silent (io_bind m k).
Proof.
  intros Hm Hk w. unfold io_bind. specialize (Hm w).
  destruct (m w) as [[a|e] w']; [|exact Hm].
  eapply same_disk_trans; [exact Hm | apply Hk].
Qed.

Lemma silent_header_new (h : header) : disk_silent (header_new h).
Proof. intros w. split; reflexivity. Qed.

Lemma silent_header_cards (l : loc) : disk_silent (header_cards l).
Proof. intros w. apply same_disk_refl. Qed.

Lemma silent_fits_open (path : string) : disk_silent (fits_open path).
Proof.
  intros w. unfold fits_open.
  destruct (fs w !! path) as [[lines|hdr data]|]; try apply same_disk_refl.
  split; reflexivity.
Qed.

Create HintDb silent.
#[local] Hint Resolve silent_ret silent_raise silent_lift silent_header_new
  silent_header_cards silent_fits_open : silent.

Ltac silent_steps :=
  repeat first
    [ solve [auto with silent]
    | apply silent_bind; [solve [auto with silent] | intros; repeat case_match] ].

Lemma silent_readData (Qfilename Ufilename : string) :
  disk_silent (readData Qfilename Ufilename).
Proof. unfold readData. silent_steps. Qed.

Lemma silent_read_prediction (filename : string) :
  disk_silent (read_prediction filename).
Proof.
  intros w. unfold read_prediction.
  destruct (fs w !! filename) as [[lines|hdr data]|]; apply same_disk_refl.
Qed.

(** ** The orchestrator *)

Lemma apply_correction_after_reads `{Writer} (w w1 w2 : world)
    (Qfile Ufile predictionfile Qoutfile Uoutfile : string) (overwrite : bool)
    (frequencies : ndarray float) (theta : ndarray complex)
    (Qdata Udata : ndarray float) (header : loc) :
  read_prediction predictionfile w = (Ok (frequencies, theta), w1) →
  readData Qfile Ufile w1 = (Ok (Qdata, Udata, header), w2) →
  apply_correction_to_files Qfile Ufile predictionfile Qoutfile Uoutfile overwrite w
  = (if bool_decide (shape Qdata ≠ shape Udata)
     then io_raise (Exception "Q and U files don't have same dimensions.")
     else
       channels ←! io_lift (shape0 Qdata);
       if bool_decide (channels ≠ size_of (shape theta))
       then io_raise (Exception
              "Prediction file does not have same number of channels as FITS cube.")
       else
         _ ←! io_log CallCorrect;
         '(Qcorr, Ucorr) ←! io_lift (correct_cubes Qdata Udata theta);
         write_corrected_cubes Qoutfile Uoutfile Qcorr Ucorr header overwrite) w2.
Proof.
  intros Hpred Hread.
  unfold apply_correction_to_files, io_bind at 1. rewrite Hpred.
  unfold io_bind at 1. rewrite Hread. reflexivity.
Qed.

(** C4. Consistency gating.  In a run of [apply_correction_to_files] whose
    two reads succeed, if the shapes of the Q and U cubes differ, or the
    extent of axis 0 of the cube differs from the size of theta, the run ends
    in the corresponding exception of lines 45 and 47; at that point no file
    has been written and neither the correction engine nor [writeto] has been
    called (file system and call log are those of the start). *)
Theorem consistency_gate `{Writer} (w w1 w2 : world)
    (Qfile Ufile predictionfile Qoutfile Uoutfile : string) (overwrite : bool)
    (frequencies : ndarray float) (theta : ndarray complex)
    (Qdata Udata : ndarray float) (header : loc) :
  read_prediction predictionfile w = (Ok (frequencies, theta), w1) →
  readData Qfile Ufile w1 = (Ok (Qdata, Udata, header), w2) →
  let run :=
    apply_correction_to_files Qfile Ufile predictionfile Qoutfile Uoutfile overwrite w in
  (shape Qdata ≠ shape Udata →
     run = (Raise (Exception "Q and U files don't have same dimensions."), w2)) ∧
  (∀ channels rest,
     shape Qdata = shape Udata →
     shape Qdata = channels :: rest →
     channels ≠ size_of (shape theta) →
     run = (Raise (Exception
              "Prediction file does not have same number of channels as FITS cube."),
            w2)) ∧
  fs w2 = fs w ∧ log w2 = log w.
Proof.
  intros Hpred Hread run. subst run.
  rewrite (apply_correction_after_reads w w1 w2 _ _ _ _ _ _ _ _ _ _ _ Hpred Hread).
  split; [|split].
  - intros Hne. rewrite bool_decide_eq_true_2 by exact Hne. reflexivity.
  - intros channels rest Heq Hsh Hch.
    rewrite bool_decide_eq_false_2 by (intros Hne; apply Hne; exact Heq).
    unfold io_bind at 1, io_lift, shape0. rewrite Hsh.
    rewrite bool_decide_eq_true_2 by exact Hch. reflexivity.
  - pose proof (silent_read_prediction predictionfile w) as [Hfs1 Hlog1].
    pose proof (silent_readData Qfile Ufile w1) as [Hfs2 Hlog2].
    rewrite Hpred in Hfs1, Hlog1. rewrite Hread in Hfs2, Hlog2. simpl in *.
    split; congruence.
Qed.

(** ** Writing the corrected cubes *)

Lemma writeto_fresh `{Writer} (path : string) (data : ndarray float) (l : loc)
    (overwrite : bool) (w : world) :
  fs w !! path = None →
  writeto path data l overwrite w
  = (Ok tt, World (<[path := FitsFile (stored_header (default ([] : header) (heap w !! l)) data) data]> (fs w))
                  (heap w) (log w ++ [CallWriteto path])).
Proof.
  intros Hfree. unfold writeto, io_bind, io_log, header_cards. cbn [fs heap log].
  rewrite Hfree. reflexivity.
Qed.

Lemma writeto_conflict `{Writer} (path : string) (data : ndarray float) (l : loc)
    (w : world) (f : file) :
  fs w !! path = Some f →
  writeto path data l false w
  = (Raise OSError, World (fs w) (heap w) (log w ++ [CallWriteto path])).
Proof.
  intros Hthere. unfold writeto, io_bind, io_log, header_cards. cbn [fs heap log].
  rewrite Hthere. reflexivity.
Qed.

Lemma writeto_overwrite `{Writer} (path : string) (data : ndarray float) (l : loc)
    (w : world) :
  writeto path data l true w
  = (Ok tt, World (<[path := FitsFile (stored_header (default ([] : header) (heap w !! l)) data) data]> (fs w))
                  (heap w) (log w ++ [CallWriteto path])).
Proof.
  unfold writeto, io_bind, io_log, header_cards. cbn [fs heap log].
  destruct (fs w !! path); reflexivity.
Qed.

Lemma writeto_heap `{Writer} (path : string) (data : ndarray float) (l : loc)
    (overwrite : bool) (w : world) :
  heap (writeto path data l overwrite w).2 = heap w.
Proof.
  unfold writeto, io_bind, io_log, header_cards. cbn [fs heap log].
  destruct (fs w !! path), overwrite; reflexivity.
Qed.

(** Without [overwrite], [writeto] leaves every file that exists as it is. *)
Lemma writeto_keeps `{Writer} (path : string) (data : ndarray float) (l : loc)
    (w : world) (p : string) (f : file) :
  fs w !! p = Some f → fs (writeto path data l false w).2 !! p = Some f.
Proof.
  intros Hp. destruct (fs w !! path) as [g|] eqn:E.
  - rewrite (writeto_conflict _ _ _ _ g E). exact Hp.
  - rewrite (writeto_fresh _ _ _ _ _ E). cbn [snd fs].
    rewrite lookup_insert_ne by congruence. exact Hp.
Qed.

Lemma header_cards_run (l : loc) (w : world) (h : header) :
  heap w !! l = Some h → header_cards l w = (Ok h, w).
Proof. intros Hh. unfold header_cards. rewrite Hh. reflexivity. Qed.

Lemma header_copy_run (l : loc) (w : world) (h : header) :
  heap w !! l = Some h →
  header_copy l w = (Ok (length (heap w)), World (fs w) (heap w ++ [h]) (log w)).
Proof.
  intros Hh. unfold header_copy, io_bind. rewrite (header_cards_run l w h Hh).
  reflexivity.
Qed.

(** *** Commentary cards *)

Lemma header_find_app (key : string) (h1 h2 : header) :
  header_find key (h1 ++ h2)
  = match header_find key h1 with
    | Some v => Some v
    | None => header_find key h2
    end.
Proof.
  induction h1 as [|[k v] h1 IH]; simpl; [reflexivity|].
  destruct (String.eqb k key); [reflexivity | exact IH].
Qed.

(** A card put anywhere in a header is not seen under another keyword. *)
Lemma header_find_insert (key : string) (c : card) (i : nat) (h : header) :
  c.1 ≠ key →
  header_find key (take i h ++ c :: drop i h) = header_find key h.
Proof.
  intros Hne. rewrite <- (take_drop i h) at 3. rewrite !header_find_app.
  destruct c as [k v]. cbn [header_find].
  destruct (String.eqb_spec k key) as [Heq|_]; [destruct (Hne Heq) | reflexivity].
Qed.

Lemma card_is_blank_key (c : card) : card_is_blank c = true → c.1 = "".
Proof. destruct c as [[|a k] v]; [reflexivity | discriminate]. Qed.

Lemma useblanks_not_blank (h : header) : ends_blank h = false → useblanks h = h.
Proof.
  unfold ends_blank, useblanks. destruct (last h) as [c|]; [|reflexivity].
  intros ->. reflexivity.
Qed.

Lemma useblanks_blank (h : header) (c : card) :
  card_is_blank c = true → useblanks (h ++ [c]) = h.
Proof.
  intros Hb. unfold useblanks. rewrite last_snoc, Hb, length_app. cbn [length].
  replace (length h + 1 - 1) with (length h) by lia.
  apply take_app_length.
Qed.

(** Dropping a blank card is not seen under a keyword. *)
Lemma header_find_useblanks (key : string) (h : header) :
  key ≠ "" → header_find key (useblanks h) = header_find key h.
Proof.
  intros Hne. destruct (ends_blank h) eqn:E.
  - unfold ends_blank in E. destruct (last h) as [c|] eqn:El; [|discriminate].
    apply last_Some in El as [h' ->]. rewrite (useblanks_blank h' c E).
    rewrite header_find_app. destruct (header_find key h'); [reflexivity|].
    apply card_is_blank_key in E. destruct c as [k v]. cbn in E. subst k.
    cbn [header_find]. destruct (String.eqb_spec "" key) as [Heq|_]; [|reflexivity].
    destruct (Hne (eq_sym Heq)).
  - rewrite useblanks_not_blank by exact E. reflexivity.
Qed.

Lemma header_find_header_insert (key : string) (idx : nat) (c : card) (h : header) :
  c.1 ≠ key → key ≠ "" →
  header_find key (header_insert idx c h) = header_find key h.
Proof.
  intros Hc Hne. unfold header_insert. destruct (length h <=? idx).
  - rewrite header_find_app. destruct (header_find key h); [reflexivity|].
    destruct c as [k v]. cbn [header_find].
    destruct (String.eqb_spec k key) as [Heq|_]; [destruct (Hc Heq) | reflexivity].
  - rewrite header_find_useblanks by exact Hne. apply header_find_insert. exact Hc.
Qed.

Lemma header_find_append_bottom (key : string) (c : card) (h : header) :
  c.1 ≠ key → key ≠ "" →
  header_find key (header_append_bottom c h) = header_find key h.
Proof.
  intros Hc Hne. unfold header_append_bottom.
  rewrite header_find_useblanks by exact Hne. apply header_find_insert. exact Hc.
Qed.

Lemma header_find_foldl (key : string) (f : card → header → header)
    (cards : list card) (h : header) :
  (∀ c h, c ∈ cards → header_find key (f c h) = header_find key h) →
  header_find key (foldl (λ h c, f c h) h cards) = header_find key h.
Proof.
  revert h. induction cards as [|c cards IH]; intros h Hf; [reflexivity|].
  cbn [foldl]. rewrite IH.
  - apply Hf. left.
  - intros c' h' Hin. apply Hf. right. exact Hin.
Qed.

Lemma splitcommentary_keyword (keyword text : string) (c : card) :
  c ∈ splitcommentary keyword text → c.1 = keyword.
Proof.
  unfold splitcommentary. intros Hin.
  apply list_elem_of_fmap in Hin as (s & -> & _). reflexivity.
Qed.

(** Commentary added to a header is not seen under another keyword. *)
Lemma header_find_add_commentary (key keyword text : string) (h : header) :
  keyword ≠ key → key ≠ "" →
  header_find key (add_commentary keyword text h) = header_find key h.
Proof.
  intros Hk Hne. unfold add_commentary.
  destruct (last_index keyword h) as [idx|].
  - apply (header_find_foldl key (header_insert (S idx))).
    intros c h' Hin. apply header_find_header_insert; [|exact Hne].
    rewrite elem_of_reverse in Hin. rewrite (splitcommentary_keyword _ _ _ Hin). exact Hk.
  - apply (header_find_foldl key header_append_bottom).
    intros c h' Hin. apply header_find_append_bottom; [|exact Hne].
    rewrite (splitcommentary_keyword _ _ _ Hin). exact Hk.
Qed.

(** The note takes one card. *)
Lemma annotated_unfold (h : header) :
  annotated h
  = match last_index "HISTORY" h with
    | Some idx => header_insert (S idx) note_card h
    | None => header_append_bottom note_card h
    end.
Proof. unfold annotated, add_commentary. destruct (last_index "HISTORY" h); reflexivity. Qed.

Lemma last_index_none (key : string) (h : header) :
  last_index key h = None ↔ header_find key h = None.
Proof.
  induction h as [|[k v] h IH]; simpl; [tauto|].
  destruct (last_index key h) as [i|].
  - split; [discriminate|]. intros Hf. destruct (String.eqb k key); [discriminate|].
    apply IH in Hf. discriminate.
  - destruct (String.eqb k key); [split; discriminate|]. split; intros _.
    + apply IH. reflexivity.
    + reflexivity.
Qed.

Lemma last_index_last (key : string) (v : value) (h1 h2 : header) :
  header_find key h2 = None →
  last_index key (h1 ++ (key, v) :: h2) = Some (length h1).
Proof.
  intros Hnone. apply last_index_none in Hnone.
  induction h1 as [|[k' v'] h1 IH]; simpl.
  - rewrite Hnone, String.eqb_refl. reflexivity.
  - rewrite IH. reflexivity.
Qed.

Lemma strip_blanks_not_blank (h : header) :
  ends_blank h = false → length (strip_blanks (reverse h)) = length h.
Proof.
  unfold ends_blank. destruct (last h) as [c|] eqn:El.
  - apply last_Some in El as [h' ->]. intros Hb.
    rewrite reverse_snoc. cbn [strip_blanks]. rewrite Hb.
    cbn [length]. rewrite length_reverse, length_app. cbn [length]. lia.
  - apply last_None in El as ->. reflexivity.
Qed.

Lemma ends_blank_snoc (h : header) (c : card) : ends_blank (h ++ [c]) = card_is_blank c.
Proof. unfold ends_blank. rewrite last_snoc. reflexivity. Qed.

Lemma ends_blank_insert (h1 h2 : header) (c d : card) :
  ends_blank (h1 ++ c :: d :: h2) = ends_blank (h1 ++ d :: h2).
Proof.
  unfold ends_blank. rewrite !last_app. cbn [last].
  destruct h2; reflexivity.
Qed.

(** Where the note goes: behind the last HISTORY card of the header, and at
    the end of a header that has none. *)
Lemma annotated_after_history (h1 h2 : header) (v : value) :
  header_find "HISTORY" h2 = None →
  ends_blank (h1 ++ ("HISTORY", v) :: h2) = false →
  annotated (h1 ++ ("HISTORY", v) :: h2) = h1 ++ ("HISTORY", v) :: note_card :: h2.
Proof.
  intros Hnone Hend. rewrite annotated_unfold, (last_index_last _ _ _ _ Hnone).
  unfold header_insert.
  assert (Hsplit : ∀ t : header,
            h1 ++ ("HISTORY", v) :: t = (h1 ++ [("HISTORY", v)]) ++ t)
    by (intros t; rewrite <- app_assoc; reflexivity).
  assert (Hlen : S (length h1) = length (h1 ++ [("HISTORY", v)]))
    by (rewrite length_app; cbn [length]; lia).
  rewrite Hlen, (Hsplit h2), take_app_length, drop_app_length, length_app.
  destruct h2 as [|d h2].
  - destruct (_ <=? _) eqn:E.
    + rewrite app_nil_r, <- app_assoc. reflexivity.
    + apply Nat.leb_gt in E. cbn [length] in E. lia.
  - destruct (_ <=? _) eqn:E.
    { apply Nat.leb_le in E. cbn [length] in E. lia. }
    rewrite useblanks_not_blank; [rewrite <- app_assoc; reflexivity|].
    rewrite ends_blank_insert, <- (Hsplit (d :: h2)). exact Hend.
Qed.

Lemma annotated_no_history (h : header) :
  header_find "HISTORY" h = None →
  ends_blank h = false →
  annotated h = h ++ [note_card].
Proof.
  intros Hnone Hend. rewrite annotated_unfold.
  rewrite (proj2 (last_index_none _ _) Hnone). unfold header_append_bottom.
  rewrite (strip_blanks_not_blank h Hend), take_ge, drop_ge by lia.
  apply useblanks_not_blank. apply ends_blank_snoc.
Qed.

Lemma useblanks_keeps (c : card) (h : header) :
  card_is_blank c = false → c ∈ h → c ∈ useblanks h.
Proof.
  intros Hc Hin. destruct (ends_blank h) eqn:E.
  - unfold ends_blank in E. destruct (last h) as [b|] eqn:El; [|discriminate].
    apply last_Some in El as [h' ->]. rewrite (useblanks_blank h' b E).
    apply elem_of_app in Hin as [Hin|Hin]; [exact Hin|].
    apply list_elem_of_singleton in Hin. subst b. congruence.
  - rewrite useblanks_not_blank by exact E. exact Hin.
Qed.

(** The annotated header has the card of the note. *)
Lemma note_in_annotated (h : header) : note_card ∈ annotated h.
Proof.
  rewrite annotated_unfold. destruct (last_index "HISTORY" h) as [idx|].
  - unfold header_insert. destruct (length h <=? S idx).
    + apply elem_of_app. right. left.
    + apply useblanks_keeps; [reflexivity|]. apply elem_of_app. right. left.
  - unfold header_append_bottom.
    apply useblanks_keeps; [reflexivity|]. apply elem_of_app. right. left.
Qed.

(** On a header with history in front of other cards the note stands
    between the two; a blank card at the end makes room for it. *)
Example annotated_history_header :
  annotated history_header
  = [("NAXIS", VInt 3); ("CTYPE1", VStr "RA---SIN"); ("CTYPE2", VStr "DEC--SIN");
     ("HISTORY", VStr "Imaged."); note_card;
     ("CTYPE3", VStr "FREQ"); ("OBJECT", VStr "3C286")] ∧
  annotated padded_header = annotated history_header ++ [("", VStr "")] ∧
  annotated (cube_header ++ [("", VStr "")]) = cube_header ++ [note_card].
Proof. repeat split. Qed.

Lemma add_history_fresh (files : gmap string file) (hp : list header)
    (lg : list event) (h : header) (text : string) :
  add_history (length hp) text (World files (hp ++ [h]) lg)
  = (Ok tt, World files (hp ++ [add_commentary "HISTORY" text h]) lg).
Proof.
  unfold add_history. cbn [fs heap log]. f_equal. f_equal.
  rewrite <- (Nat.add_0_r (length hp)). rewrite alter_app_r. reflexivity.
Qed.

(** [write_corrected_cubes] up to its two writes: the caller's header is
    copied to a new object, the note goes on the copy, and the cubes are put
    back in the header's axis order. *)
Lemma write_corrected_cubes_run `{Writer} (Qout Uout : string) (Qcorr Ucorr : ndarray float)
    (hloc : loc) (overwrite : bool) (w : world) (h : header) :
  heap w !! hloc = Some h →
  let out := length (heap w) in
  let w' := World (fs w) (heap w ++ [annotated h]) (log w) in
  heap w' !! out = Some (annotated h) ∧
  write_corrected_cubes Qout Uout Qcorr Ucorr hloc overwrite w
  = match restore_layout (annotated h) Qcorr Ucorr with
    | Raise e => (Raise e, w')
    | Ok (Q', U') =>
        (_ ←! writeto Qout Q' out overwrite; writeto Uout U' out overwrite) w'
    end.
Proof.
  intros Hh out w'. subst out w'. unfold annotated. cbn [heap].
  assert (Hout : (heap w ++ [add_commentary "HISTORY" history_note h]) !! length (heap w)
                 = Some (add_commentary "HISTORY" history_note h)).
  { apply list_lookup_middle. reflexivity. }
  split; [exact Hout|].
  unfold write_corrected_cubes.
  unfold io_bind at 1. rewrite (header_copy_run hloc w h Hh).
  unfold io_bind at 1. rewrite add_history_fresh.
  unfold io_bind at 1. erewrite header_cards_run by exact Hout.
  unfold io_bind at 1, io_lift.
  destruct (restore_layout _ Qcorr Ucorr) as [[Q' U']|e]; reflexivity.
Qed.


(** The two outcomes of a [writeto]: refused with the files as they were, or
    done with the new file built from the cards of the header object. *)
Lemma writeto_cases `{Writer} (path : string) (data : ndarray float) (l : loc)
    (overwrite : bool) (w : world) :
  let lg := log w ++ [CallWriteto path] in
  writeto path data l overwrite w = (Raise OSError, World (fs w) (heap w) lg) ∨
  writeto path data l overwrite w
  = (Ok tt, World (<[path := FitsFile (stored_header (default ([] : header) (heap w !! l)) data) data]> (fs w))
                  (heap w) lg).
Proof.
  unfold writeto, io_bind, io_log, header_cards. cbn [fs heap log].
  destruct (fs w !! path), overwrite; auto.
Qed.

(** What a run of [write_corrected_cubes] leaves: the caller's header
    object as it was, one new object, the annotated copy, and no new file
    other than one written from that copy. *)
Lemma write_corrected_cubes_outputs `{Writer} (w : world) (Qout Uout : string)
    (Qcorr Ucorr : ndarray float) (hloc : loc) (overwrite : bool) (h : header) :
  heap w !! hloc = Some h →
  let run := write_corrected_cubes Qout Uout Qcorr Ucorr hloc overwrite w in
  heap run.2 !! hloc = Some h ∧
  heap run.2 = heap w ++ [annotated h] ∧
  (∀ p f, fs run.2 !! p = Some f →
     fs w !! p = Some f ∨
     ∃ data, f = FitsFile (stored_header (annotated h) data) data) ∧
  (run.1 = Ok tt →
     ∃ Q' U',
       restore_layout (annotated h) Qcorr Ucorr = Ok (Q', U') ∧
       fs run.2 !! Uout = Some (FitsFile (stored_header (annotated h) U') U') ∧
       (Qout ≠ Uout →
        fs run.2 !! Qout = Some (FitsFile (stored_header (annotated h) Q') Q'))).
Proof.
  intros Hh run. subst run.
  destruct (write_corrected_cubes_run Qout Uout Qcorr Ucorr hloc overwrite w h Hh)
    as [Hout ->].
  set (out := length (heap w)) in *.
  set (w' := World (fs w) (heap w ++ [annotated h]) (log w)) in *.
  assert (Hkeep : heap w' !! hloc = Some h).
  { unfold w'. cbn [heap]. apply lookup_app_l_Some. exact Hh. }
  destruct (restore_layout (annotated h) Qcorr Ucorr) as [[Q' U']|e].
  2:{ cbn [fst snd]. repeat split; try assumption; try reflexivity.
      - intros p f Hp. left. exact Hp.
      - discriminate. }
  unfold io_bind.
  destruct (writeto_cases Qout Q' out overwrite w') as [-> | ->].
  { cbn [fst snd fs heap]. repeat split; try assumption; try reflexivity.
    - intros p f Hp. left. exact Hp.
    - discriminate. }
  set (w1 := World _ (heap w') _).
  destruct (writeto_cases Uout U' out overwrite w1) as [-> | ->];
    cbn [fst snd fs heap log]; unfold w1; cbn [fs heap log];
    unfold loc in *; rewrite Hout; cbn [default].
  - repeat split; try assumption; try reflexivity.
    + intros p f Hp. destruct (decide (p = Qout)) as [->|Hne].
      * rewrite lookup_insert_eq in Hp. injection Hp as <-. right. eexists. reflexivity.
      * rewrite lookup_insert_ne in Hp by congruence. left. exact Hp.
    + discriminate.
  - repeat split; try assumption; try reflexivity.
    + intros p f Hp. destruct (decide (p = Uout)) as [->|HneU].
      { rewrite lookup_insert_eq in Hp. injection Hp as <-. right. eexists. reflexivity. }
      rewrite lookup_insert_ne in Hp by congruence.
      destruct (decide (p = Qout)) as [->|HneQ].
      { rewrite lookup_insert_eq in Hp. injection Hp as <-. right. eexists. reflexivity. }
      rewrite lookup_insert_ne in Hp by congruence. left. exact Hp.
    + intros _. exists Q', U'. split; [reflexivity|]. split.
      * apply lookup_insert_eq.
      * intros Hne. rewrite lookup_insert_ne by congruence. apply lookup_insert_eq.
Qed.

(** C10. Header frame condition.  [write_corrected_cubes] leaves the
    caller's header object as it was: the history note is added to a copy,
    a new object, and the store of header objects grows by exactly that
    annotated copy.  The copy has the card of the note, and under every
    other keyword it reads as the caller's header does; the note stands
    behind the last HISTORY card of the header, and at the end of a header
    that has none (a header that ends in a blank card aside).  Every file the
    run leaves that was not there before is written from the annotated copy;
    when the run succeeds the U output and the Q output are both written from
    it.  The note contains the text
    "Corrected for ionospheric Faraday rotation". *)
Theorem header_frame `{Writer} (w : world) (Qout Uout : string)
    (Qcorr Ucorr : ndarray float) (hloc : loc) (overwrite : bool) (h : header) :
  heap w !! hloc = Some h →
  let run := write_corrected_cubes Qout Uout Qcorr Ucorr hloc overwrite w in
  heap run.2 !! hloc = Some h ∧
  heap run.2 = heap w ++ [annotated h] ∧
  note_card ∈ annotated h ∧
  (∀ key, key ≠ "HISTORY" → key ≠ "" →
     header_find key (annotated h) = header_find key h) ∧
  (∀ h1 v h2, h = h1 ++ ("HISTORY", v) :: h2 →
     header_find "HISTORY" h2 = None → ends_blank h = false →
     annotated h = h1 ++ ("HISTORY", v) :: note_card :: h2) ∧
  (header_find "HISTORY" h = None → ends_blank h = false →
     annotated h = h ++ [note_card]) ∧
  str_contains "Corrected for ionospheric Faraday rotation" history_note = true ∧
  (∀ p f, fs run.2 !! p = Some f →
     fs w !! p = Some f ∨
     ∃ data, f = FitsFile (stored_header (annotated h) data) data) ∧
  (run.1 = Ok tt →
     ∃ Q' U',
       restore_layout (annotated h) Qcorr Ucorr = Ok (Q', U') ∧
       fs run.2 !! Uout = Some (FitsFile (stored_header (annotated h) U') U') ∧
       (Qout ≠ Uout →
        fs run.2 !! Qout = Some (FitsFile (stored_header (annotated h) Q') Q'))).
Proof.
  intros Hh run.
  destruct (write_corrected_cubes_outputs w Qout Uout Qcorr Ucorr hloc overwrite h Hh)
    as (Hkeep & Hheap & Hfiles & Hdone).
  split; [exact Hkeep|]. split; [exact Hheap|].
  split; [apply note_in_annotated|].
  split.
  { intros key Hkey Hne. apply header_find_add_commentary; congruence. }
  split.
  { intros h1 v h2 -> Hnone Hend. apply annotated_after_history; assumption. }
  split; [apply annotated_no_history|].
  split; [vm_compute; reflexivity|].
  split; [exact Hfiles | exact Hdone].
Qed.

(** ** Mismatched cubes on disk *)

Lemma normalize_axis_index_lt (axis : Z) (nd k : nat) :
  normalize_axis_index axis nd = Ok k → k < nd.
Proof.
  unfold normalize_axis_index.
  destruct (_ && _) eqn:E; [|discriminate].
  apply andb_true_iff in E as [Hlo Hhi].
  apply Z.leb_le in Hlo. apply Z.ltb_lt in Hhi.
  intros [= <-]. destruct (axis <? 0)%Z eqn:Hneg.
  - apply Z.ltb_lt in Hneg. lia.
  - apply Z.ltb_ge in Hneg. lia.
Qed.

Lemma moveaxis_to_front_shape {T} (A B : ndarray T) (axis : Z) :
  moveaxis A axis 0 = Ok B →
  ∃ src, normalize_axis_index axis (ndim A) = Ok src ∧ src < ndim A ∧
         shape B = permute 0 (shape A) (moveaxis_order (ndim A) src 0).
Proof.
  unfold moveaxis. intros HB.
  destruct (normalize_axis_index axis (ndim A)) as [src|] eqn:Hs; [|discriminate].
  pose proof (normalize_axis_index_lt _ _ _ Hs) as Hlt.
  cbn [rbind] in HB.
  change 0%Z with (Z.of_nat 0) in HB.
  rewrite (normalize_axis_index_nat 0 (ndim A)) in HB by lia.
  cbn [rbind] in HB. injection HB as <-.
  exists src. split; [reflexivity|]. split; [exact Hlt | reflexivity].
Qed.

(** Normalizing two cubes with the same axis arguments cannot make
    different shapes equal. *)
Lemma to_canonical_shape_inj {T} (A A' B B' : ndarray T) (ax n : Z) :
  to_canonical A ax n = Ok A' →
  to_canonical B ax n = Ok B' →
  shape A' = shape B' → shape A = shape B.
Proof.
  unfold to_canonical. destruct (bool_decide _).
  2:{ intros [= <-] [= <-] Heq. exact Heq. }
  intros HA HB Heq.
  destruct (moveaxis_to_front_shape A A' _ HA) as (s1 & Hs1 & Hlt1 & HshA).
  destruct (moveaxis_to_front_shape B B' _ HB) as (s2 & Hs2 & Hlt2 & HshB).
  assert (Hnd : ndim A = ndim B).
  { apply (f_equal length) in Heq. rewrite HshA, HshB, !permute_length in Heq.
    rewrite !length_moveaxis_order in Heq by assumption. exact Heq. }
  rewrite <- Hnd in *. rewrite Hs1 in Hs2. injection Hs2 as <-.
  rewrite <- (permute_roundtrip 0 (shape A) s1) by exact Hlt1.
  rewrite <- (permute_roundtrip 0 (shape B) s1) by (unfold ndim in *; lia).
  unfold ndim in *. rewrite <- Hnd. rewrite <- HshA, <- HshB, Heq. reflexivity.
Qed.

Lemma readData_run (Qfilename Ufilename : string) (w w2 : world)
    (hq hu : header) (dq du Qdata Udata : ndarray float) (hloc : loc) :
  fs w !! Qfilename = Some (FitsFile hq dq) →
  fs w !! Ufilename = Some (FitsFile hu du) →
  readData Qfilename Ufilename w = (Ok (Qdata, Udata, hloc), w2) →
  ∃ ax n, to_canonical dq ax n = Ok Qdata ∧ to_canonical du ax n = Ok Udata.
Proof.
  intros HQ HU. unfold readData.
  unfold io_bind at 1. unfold fits_open at 1. rewrite HQ.
  unfold io_bind at 1. unfold header_new at 1, io_ret at 1.
  unfold io_bind at 1. unfold fits_open at 1. cbn [fs]. rewrite HU.
  unfold io_bind at 1. unfold header_new at 1, io_ret at 1.
  unfold io_bind at 1. unfold header_cards at 1.
  unfold io_bind, io_lift, io_ret.
  destruct (header_getitem _ "NAXIS") as [N_dim|]; [|discriminate].
  destruct (find_freq_axis _) as [ax|]; [|discriminate].
  destruct (value_index N_dim) as [n|]; [|discriminate].
  destruct (to_canonical dq ax n) as [Q|] eqn:EQ; [|discriminate].
  destruct (to_canonical du ax n) as [U|] eqn:EU; [|discriminate].
  intros [= <- <- <- <-]. exists ax, n. split; assumption.
Qed.

(** Whatever else happens in the run, cubes stored with different shapes are
    never corrected and never written: the run fails with the file system
    and the call log as they were. *)
Lemma mismatched_cubes_rejected `{Writer} (w : world)
    (Qfile Ufile predictionfile Qoutfile Uoutfile : string) (overwrite : bool)
    (hq hu : header) (dq du : ndarray float) :
  fs w !! Qfile = Some (FitsFile hq dq) →
  fs w !! Ufile = Some (FitsFile hu du) →
  shape dq ≠ shape du →
  let run :=
    apply_correction_to_files Qfile Ufile predictionfile Qoutfile Uoutfile overwrite w in
  is_ok run.1 = false ∧ fs run.2 = fs w ∧ log run.2 = log w.
Proof.
  intros HQ HU Hne run. subst run.
  destruct (read_prediction predictionfile w) as [[[fr th]|e] w1] eqn:Hpred.
  2:{ unfold apply_correction_to_files. rewrite (io_bind_raise _ _ _ _ _ Hpred).
      pose proof (silent_read_prediction predictionfile w) as [Hfs Hlog].
      rewrite Hpred in Hfs, Hlog. repeat split; assumption. }
  assert (Hw1 : w1 = w).
  { pose proof (read_prediction_world w predictionfile) as Hsame.
    rewrite Hpred in Hsame. exact Hsame. }
  subst w1.
  destruct (readData Qfile Ufile w) as [[[[Qd Ud] hloc]|e] w2] eqn:Hread.
  2:{ unfold apply_correction_to_files. rewrite (io_bind_ok _ _ _ _ _ Hpred).
      rewrite (io_bind_raise _ _ _ _ _ Hread).
      pose proof (silent_readData Qfile Ufile w) as [Hfs Hlog].
      rewrite Hread in Hfs, Hlog. repeat split; assumption. }
  destruct (readData_run _ _ _ _ _ _ _ _ _ _ _ HQ HU Hread) as (ax & n & HcQ & HcU).
  assert (Hshapes : shape Qd ≠ shape Ud).
  { intros Heq. apply Hne. exact (to_canonical_shape_inj _ _ _ _ _ _ HcQ HcU Heq). }
  rewrite (apply_correction_after_reads w w w2 _ _ _ _ _ _ _ _ _ _ _ Hpred Hread).
  rewrite bool_decide_eq_true_2 by exact Hshapes.
  pose proof (silent_readData Qfile Ufile w) as [Hfs Hlog].
  rewrite Hread in Hfs, Hlog. repeat split; assumption.
Qed.

(** * Further properties of the code *)

(** ** Detection: errors and what it reads *)

(** X1. [find_freq_axis] fails only on NAXIS: a header without NAXIS gives
    KeyError, a NAXIS that is a string or a float gives TypeError, and with
    an integer NAXIS below 1 the result is 0 whatever the labels say. *)
Theorem find_freq_axis_naxis (h : header) :
  (header_find "NAXIS" h = None → find_freq_axis h = Raise KeyError) ∧
  (∀ v, header_find "NAXIS" h = Some v →
     (∀ n, v ≠ VInt n) → (∀ b, v ≠ VBool b) →
     find_freq_axis h = Raise TypeError) ∧
  (∀ n, header_find "NAXIS" h = Some (VInt n) → (n ≤ 0)%Z →
     find_freq_axis h = Ok 0%Z).
Proof.
  unfold find_freq_axis, header_getitem. split; [|split].
  - intros ->. reflexivity.
  - intros v -> Hint Hbool. destruct v as [n|b|x|s]; try reflexivity.
    + destruct (Hint n). reflexivity.
    + destruct (Hbool b). reflexivity.
  - intros n -> Hn. cbn [rbind value_index]. unfold py_range.
    replace (Z.to_nat (n + 1 - 1)) with 0 by lia. reflexivity.
Qed.

Lemma find_freq_axis_naxis_witness :
  find_freq_axis [("CTYPE1", VStr "FREQ")] = Raise KeyError ∧
  find_freq_axis [("NAXIS", VStr "3"); ("CTYPE1", VStr "FREQ")] = Raise TypeError ∧
  find_freq_axis [("NAXIS", VInt 0); ("CTYPE1", VStr "FREQ")] = Ok 0%Z.
Proof.
  split; [|split].
  - apply (proj1 (find_freq_axis_naxis [("CTYPE1", VStr "FREQ")])). reflexivity.
  - apply (proj1 (proj2 (find_freq_axis_naxis
             [("NAXIS", VStr "3"); ("CTYPE1", VStr "FREQ")])) (VStr "3"));
      [reflexivity | discriminate | discriminate].
  - apply (proj2 (proj2 (find_freq_axis_naxis
             [("NAXIS", VInt 0); ("CTYPE1", VStr "FREQ")])) 0%Z); [reflexivity | lia].
Defined.

Lemma header_find_app_other (key k : string) (v : value) (h : header) :
  String.eqb k key = false →
  header_find key (h ++ [(k, v)]) = header_find key h.
Proof.
  intros Hk. induction h as [|[k' v'] h IH]; simpl.
  - rewrite Hk. reflexivity.
  - destruct (String.eqb k' key); [reflexivity | exact IH].
Qed.

(** Detection reads NAXIS and the CTYPE cards and nothing else. *)
Lemma find_freq_axis_ext (h h' : header) :
  header_find "NAXIS" h = header_find "NAXIS" h' →
  (∀ i, header_find ("CTYPE" +:+ str i) h = header_find ("CTYPE" +:+ str i) h') →
  find_freq_axis h = find_freq_axis h'.
Proof.
  intros Hn Hc. unfold find_freq_axis, header_getitem. rewrite Hn.
  destruct (header_find "NAXIS" h') as [v|]; [|reflexivity]. cbn [rbind].
  destruct (value_index v) as [n|e]; [|reflexivity]. cbn [rbind]. f_equal.
  generalize 0%Z. induction (py_range 1 (n + 1)) as [|i l IH]; intros acc.
  - reflexivity.
  - simpl. rewrite IH. f_equal.
    unfold scan_axis, ctype_has_freq, header_getitem. rewrite Hc. reflexivity.
Qed.

(** Detection on the annotated copy is detection on the header. *)
Lemma annotated_same_axis (h : header) :
  find_freq_axis (annotated h) = find_freq_axis h.
Proof.
  unfold annotated. apply find_freq_axis_ext.
  - apply header_find_add_commentary; discriminate.
  - intros i. apply header_find_add_commentary; intros Heq; cbn in Heq; discriminate.
Qed.

(** X2. The history note does not disturb detection: on a header with a
    HISTORY card appended, [find_freq_axis] and the NAXIS lookup give what
    they give on the header itself, and so they do on the copy
    [write_corrected_cubes] annotates, wherever the note stands in it, so
    [write_corrected_cubes] restores along the axis [readData] normalized. *)
Theorem find_freq_axis_annotated (h : header) (text : string) :
  find_freq_axis (h ++ [("HISTORY", VStr text)]) = find_freq_axis h ∧
  header_getitem (h ++ [("HISTORY", VStr text)]) "NAXIS" = header_getitem h "NAXIS" ∧
  find_freq_axis (add_commentary "HISTORY" text h) = find_freq_axis h ∧
  header_getitem (add_commentary "HISTORY" text h) "NAXIS" = header_getitem h "NAXIS".
Proof.
  split; [|split; [|split]].
  - apply find_freq_axis_ext.
    + apply header_find_app_other. reflexivity.
    + intros i. apply header_find_app_other. reflexivity.
  - unfold header_getitem. rewrite header_find_app_other by reflexivity. reflexivity.
  - apply find_freq_axis_ext.
    + apply header_find_add_commentary; discriminate.
    + intros i. apply header_find_add_commentary; intros Heq; cbn in Heq; discriminate.
  - unfold header_getitem. rewrite header_find_add_commentary by discriminate.
    reflexivity.
Qed.

Lemma ascii_upper_idem (c : ascii) : ascii_upper (ascii_upper c) = ascii_upper c.
Proof. destruct c as [[] [] [] [] [] [] [] []]; reflexivity. Qed.

Lemma ascii_upper_lower (c : ascii) : ascii_upper (ascii_lower c) = ascii_upper c.
Proof. destruct c as [[] [] [] [] [] [] [] []]; reflexivity. Qed.

Lemma str_upper_idem (s : string) : str_upper (str_upper s) = str_upper s.
Proof. induction s as [|c s IH]; simpl; [reflexivity|]. rewrite ascii_upper_idem, IH. reflexivity. Qed.

Lemma str_upper_lower (s : string) : str_upper (str_lower s) = str_upper s.
Proof. induction s as [|c s IH]; simpl; [reflexivity|]. rewrite ascii_upper_lower, IH. reflexivity. Qed.

Lemma header_find_map_text (f : string → string) (key : string) (h : header) :
  header_find key (header_map_text f h)
  = value_map_text f <$> header_find key h.
Proof.
  induction h as [|[k v] h IH]; [reflexivity|].
  simpl. destruct (String.eqb k key); [reflexivity | exact IH].
Qed.

(** Rewriting the text of the cards in a way upper-casing cannot see does
    not change the detected axis. *)
Lemma find_freq_axis_map_text (f : string → string) (h : header) :
  (∀ s, str_upper (f s) = str_upper s) →
  find_freq_axis (header_map_text f h) = find_freq_axis h.
Proof.
  intros Hf. unfold find_freq_axis, header_getitem.
  rewrite header_find_map_text.
  destruct (header_find "NAXIS" h) as [v|]; [|reflexivity]. cbn [fmap option_fmap option_map rbind].
  assert (Hidx : value_index (value_map_text f v) = value_index v)
    by (destruct v; reflexivity).
  rewrite Hidx. destruct (value_index v) as [n|e]; [|reflexivity]. cbn [rbind]. f_equal.
  generalize 0%Z. induction (py_range 1 (n + 1)) as [|i l IH]; intros acc.
  - reflexivity.
  - simpl. rewrite IH. f_equal.
    unfold scan_axis, ctype_has_freq, header_getitem. rewrite header_find_map_text.
    destruct (header_find _ h) as [[m|b|x|s]|]; try reflexivity.
    simpl. rewrite Hf. reflexivity.
Qed.

(** X3. Detection is blind to letter case: upper-casing or lower-casing the
    text of every card leaves the result of [find_freq_axis] as it is, so
    FREQ, Freq and obsfreq label the same axis. *)
Theorem find_freq_axis_case_blind (h : header) :
  find_freq_axis (header_map_text str_upper h) = find_freq_axis h ∧
  find_freq_axis (header_map_text str_lower h) = find_freq_axis h.
Proof.
  split; apply find_freq_axis_map_text.
  - apply str_upper_idem.
  - apply str_upper_lower.
Qed.

(** ** The engine: what it accepts, and blanked samples *)

Lemma broadcast_shapes_channels (n m : nat) (s : list nat) :
  broadcast_shapes (n :: s) (m :: replicate (length s) 1)
  = (d ←? broadcast_dim n m; Ok (d :: s)).
Proof.
  unfold broadcast_shapes, pad_shape. simpl length.
  rewrite length_replicate, Nat.max_id, Nat.sub_diag. simpl.
  destruct (broadcast_dim n m); [|reflexivity]. simpl.
  rewrite broadcast_dims_ones. reflexivity.
Qed.

Lemma correct_cubes_broadcast (Qdata Udata : ndarray float) (theta : ndarray complex)
    (n m : nat) (s : list nat) :
  shape Qdata = n :: s → shape Udata = n :: s → shape theta = [m] →
  match broadcast_dim n m with
  | Ok d => ∃ Qcorr Ucorr, correct_cubes Qdata Udata theta = Ok (Qcorr, Ucorr) ∧
                           shape Qcorr = d :: s ∧ shape Ucorr = d :: s
  | Raise e => correct_cubes Qdata Udata theta = Raise e
  end.
Proof.
  intros HQ HU Hth. unfold correct_cubes, ufunc2, ufunc1.
  rewrite shape_from_fun, HQ, HU, broadcast_shapes_same.
  cbn [rbind]. rewrite shape_from_fun. cbn [rbind].
  unfold reshape. rewrite Hth.
  assert (Hsz : size_of (size_of [m] :: replicate (length s) 1) = size_of [m]).
  { simpl. fold (size_of (replicate (length s) 1)). rewrite size_of_ones. lia. }
  rewrite Hsz, Nat.eqb_refl. cbn [rbind shape].
  replace (size_of [m]) with m by (simpl; lia).
  rewrite broadcast_shapes_channels.
  destruct (broadcast_dim n m) as [d|e]; [|reflexivity].
  cbn [rbind]. eexists _, _. split; [reflexivity|]. split; reflexivity.
Qed.

(** X4. What the engine accepts.  [correct_cubes] does not compare the
    channel count with the prediction; numpy's broadcasting decides.  For
    same-shape cubes of n channels and a 1-D theta of m entries it returns
    arrays of n channels when n = m or m = 1, of m channels when n = 1, and
    raises ValueError otherwise; on cubes of rank 0 it raises IndexError. *)
Theorem correct_cubes_outcome
    (Qdata Udata : ndarray float) (theta : ndarray complex) :
  (shape Qdata = [] → shape Udata = [] →
     correct_cubes Qdata Udata theta = Raise IndexError) ∧
  (∀ n m s, shape Qdata = n :: s → shape Udata = n :: s → shape theta = [m] →
     (n = m ∨ n = 1 ∨ m = 1 →
        ∃ Qcorr Ucorr,
          correct_cubes Qdata Udata theta = Ok (Qcorr, Ucorr) ∧
          shape Qcorr = (if n =? 1 then m else n) :: s ∧
          shape Ucorr = (if n =? 1 then m else n) :: s) ∧
     (n ≠ m → n ≠ 1 → m ≠ 1 →
        correct_cubes Qdata Udata theta = Raise ValueError)).
Proof.
  split.
  - intros HQ HU. unfold correct_cubes, ufunc2, ufunc1.
    rewrite shape_from_fun, HQ, HU. reflexivity.
  - intros n m s HQ HU Hth.
    pose proof (correct_cubes_broadcast Qdata Udata theta n m s HQ HU Hth) as Hrun.
    unfold broadcast_dim in Hrun. split.
    + intros Hcase.
      destruct (n =? m) eqn:Enm.
      { apply Nat.eqb_eq in Enm. subst m.
        destruct (n =? 1) eqn:E1; [apply Nat.eqb_eq in E1; subst n|]; exact Hrun. }
      destruct (n =? 1) eqn:E1; [exact Hrun|].
      destruct (m =? 1) eqn:Em; [exact Hrun|].
      apply Nat.eqb_neq in Enm, E1, Em. lia.
    + intros Hnm Hn Hm.
      apply Nat.eqb_neq in Hnm, Hn, Hm. rewrite Hnm, Hn, Hm in Hrun. exact Hrun.
Qed.

Lemma correct_cubes_outcome_witness :
  ∃ Qcorr Ucorr,
    correct_cubes Q_example U_example (array1 [Complex 0 1]) = Ok (Qcorr, Ucorr) ∧
    shape Qcorr = [2; 1; 1] ∧ shape Ucorr = [2; 1; 1].
Proof.
  destruct (correct_cubes_outcome Q_example U_example (array1 [Complex 0 1]))
    as [_ Hrank].
  destruct (Hrank 2 1 [1; 1] eq_refl eq_refl eq_refl) as [Hok _].
  apply Hok. right. right. reflexivity.
Defined.

Lemma fnan_spec (x : float) : fnan x = true ↔ Prim2SF x = S754_nan.
Proof. unfold fnan. destruct (Prim2SF x); split; congruence. Qed.

Lemma fnan_add_l (x y : float) : fnan x = true → fnan (x + y) = true.
Proof.
  rewrite !fnan_spec, add_spec. intros ->. reflexivity.
Qed.

Lemma fnan_add_r (x y : float) : fnan y = true → fnan (x + y) = true.
Proof.
  rewrite !fnan_spec, add_spec. intros ->. destruct (Prim2SF x); reflexivity.
Qed.

Lemma fnan_sub_l (x y : float) : fnan x = true → fnan (x - y) = true.
Proof.
  rewrite !fnan_spec, sub_spec. intros ->. reflexivity.
Qed.

Lemma fnan_sub_r (x y : float) : fnan y = true → fnan (x - y) = true.
Proof.
  rewrite !fnan_spec, sub_spec. intros ->. destruct (Prim2SF x); reflexivity.
Qed.

Lemma fnan_mul_l (x y : float) : fnan x = true → fnan (x * y) = true.
Proof.
  rewrite !fnan_spec, mul_spec. intros ->. reflexivity.
Qed.

Lemma fnan_mul_r (x y : float) : fnan y = true → fnan (x * y) = true.
Proof.
  rewrite !fnan_spec, mul_spec. intros ->. destruct (Prim2SF x); reflexivity.
Qed.

Lemma fnan_div_l (x y : float) : fnan x = true → fnan (x / y) = true.
Proof.
  rewrite !fnan_spec, div_spec. intros ->. reflexivity.
Qed.

Lemma fnan_zero_mul_inf (x : float) : finf x = true → fnan (0 * x) = true.
Proof.
  unfold finf. rewrite fnan_spec, mul_spec. change (Prim2SF 0) with (S754_zero false).
  destruct (Prim2SF x); try discriminate. reflexivity.
Qed.

Create HintDb fnan.
#[local] Hint Resolve fnan_add_l fnan_add_r fnan_sub_l fnan_sub_r
  fnan_mul_l fnan_mul_r fnan_div_l fnan_zero_mul_inf : fnan.

(** A NaN in the real part of the dividend reaches the real part of the
    quotient on every branch of the division loop; likewise the imaginary
    part. *)
Lemma cdiv_nan_re (a b : complex) : fnan (re a) = true → fnan (re (cdiv a b)) = true.
Proof.
  intros Ha. unfold cdiv. repeat case_match; cbn [re]; auto 6 with fnan.
Qed.

Lemma cdiv_nan_im (a b : complex) : fnan (im a) = true → fnan (im (cdiv a b)) = true.
Proof.
  intros Ha. unfold cdiv. repeat case_match; cbn [im]; auto 6 with fnan.
Qed.

Lemma polarization_nan_re (Qdata Udata : ndarray float) (idx : list nat) :
  fnan (get Qdata idx) = true ∨ fnan (get Udata idx) = true ∨ finf (get Udata idx) = true →
  fnan (re (polarization Qdata Udata idx)) = true.
Proof.
  unfold polarization, cadd, cmul, of_real, imag_unit. cbn [re im].
  intros [H|[H|H]]; auto 6 with fnan.
Qed.

Lemma polarization_nan_im (Qdata Udata : ndarray float) (idx : list nat) :
  fnan (get Udata idx) = true → fnan (im (polarization Qdata Udata idx)) = true.
Proof.
  unfold polarization, cadd, cmul, of_real, imag_unit. cbn [re im].
  intros H. auto 6 with fnan.
Qed.

(** X5. Blanked samples.  For same-shape cubes and a matching 1-D theta,
    whatever theta holds: where the Q sample is NaN, or the U sample is NaN or
    infinite, the corrected Q sample is NaN; where the U sample is NaN the
    corrected U sample is NaN too.  (An infinite U turns the real part of
    [Q + 1.j*U] into NaN, through the product [0 * inf].) *)
Theorem correct_cubes_blanked
    (Qdata Udata : ndarray float) (theta : ndarray complex) (n : nat) (s : list nat) :
  shape Qdata = n :: s →
  shape Udata = n :: s →
  length (strides Qdata) = ndim Qdata →
  shape theta = [n] →
  ∃ Qcorr Ucorr,
    correct_cubes Qdata Udata theta = Ok (Qcorr, Ucorr) ∧
    ∀ idx, in_range idx (n :: s) →
      (fnan (get Qdata idx) = true ∨ fnan (get Udata idx) = true
         ∨ finf (get Udata idx) = true →
       fnan (get Qcorr idx) = true) ∧
      (fnan (get Udata idx) = true → fnan (get Ucorr idx) = true).
Proof.
  intros HQ HU HQs Hth.
  destruct (correct_cubes_run Qdata Udata theta n s HQ HU HQs Hth)
    as (Pcorr & Hrun & _ & Hget).
  exists (amap re Pcorr), (amap im Pcorr). split; [exact Hrun|].
  intros idx Hin. inversion Hin as [|i m rest s' Hi Hrest]; subst.
  destruct (Hget i rest Hin) as [-> ->]. split.
  - intros H. apply cdiv_nan_re, polarization_nan_re. exact H.
  - intros H. apply cdiv_nan_im, polarization_nan_im. exact H.
Qed.

Lemma correct_cubes_blanked_witness :
  ∃ Qcorr Ucorr,
    correct_cubes Q_blanked U_blanked theta_example = Ok (Qcorr, Ucorr) ∧
    ∀ idx, in_range idx [2; 1; 1] →
      (fnan (get Q_blanked idx) = true ∨ fnan (get U_blanked idx) = true
         ∨ finf (get U_blanked idx) = true →
       fnan (get Qcorr idx) = true) ∧
      (fnan (get U_blanked idx) = true → fnan (get Ucorr idx) = true).
Proof.
  apply (correct_cubes_blanked Q_blanked U_blanked theta_example 2 [1; 1]); reflexivity.
Defined.

(** ** Normalize, correct, restore *)

Lemma channel_axis_lt (ax N : Z) (nd : nat) :
  Z.of_nat nd = N → (0 ≤ ax ≤ N)%Z → 0 < nd → channel_axis ax N < nd.
Proof.
  intros <- Hax Hnd. unfold channel_axis. case_bool_decide; lia.
Qed.

Lemma transpose_front_front {T} (A : ndarray T) :
  length (strides A) = ndim A → 0 < ndim A →
  transpose A (moveaxis_order (ndim A) 0 0) = A.
Proof.
  intros Hst Hpos. rewrite moveaxis_order_to_front by lia. simpl app.
  change (0 :: seq 1 (ndim A - 1)) with (seq 0 (S (ndim A - 1))).
  replace (S (ndim A - 1)) with (ndim A) by lia.
  apply transpose_id. exact Hst.
Qed.

(** Both branches of the move in [readData] as one transposition. *)
Lemma to_canonical_channel {T} (A : ndarray T) (ax N : Z) :
  Z.of_nat (ndim A) = N → length (strides A) = ndim A →
  (0 ≤ ax ≤ N)%Z → 0 < ndim A →
  to_canonical A ax N
  = Ok (transpose A (moveaxis_order (ndim A) (channel_axis ax N) 0)).
Proof.
  intros <- Hst Hax Hpos. unfold channel_axis.
  destruct (decide (ax = 0%Z)) as [->|Hne0].
  { rewrite bool_decide_eq_true_2 by reflexivity.
    rewrite transpose_front_front by assumption. reflexivity. }
  rewrite bool_decide_eq_false_2 by exact Hne0.
  destruct (decide (ax = Z.of_nat (ndim A))) as [->|HneN].
  { unfold to_canonical. rewrite bool_decide_eq_false_2 by lia.
    rewrite Z.sub_diag. change (Z.to_nat 0) with 0.
    rewrite transpose_front_front by assumption. reflexivity. }
  rewrite to_canonical_moves by lia. do 3 f_equal. lia.
Qed.

(** Both branches of the move in [write_corrected_cubes] likewise. *)
Lemma to_native_channel {T} (A : ndarray T) (ax N : Z) :
  Z.of_nat (ndim A) = N → length (strides A) = ndim A →
  (0 ≤ ax ≤ N)%Z → 0 < ndim A →
  to_native A ax N
  = Ok (transpose A (moveaxis_order (ndim A) 0 (channel_axis ax N))).
Proof.
  intros <- Hst Hax Hpos. unfold channel_axis.
  destruct (decide (ax = 0%Z)) as [->|Hne0].
  { rewrite bool_decide_eq_true_2 by reflexivity.
    rewrite transpose_front_front by assumption. reflexivity. }
  rewrite bool_decide_eq_false_2 by exact Hne0.
  rewrite to_native_moves by lia. do 3 f_equal. lia.
Qed.

Lemma get_to_front {T} `{Inhabited T} (A : ndarray T) (src j : nat) (rest : list nat) :
  length (strides A) = ndim A → src < ndim A → length rest = ndim A - 1 →
  get (transpose A (moveaxis_order (ndim A) src 0)) (j :: rest)
  = get A (take src rest ++ j :: drop src rest).
Proof.
  intros Hst Hsrc Hlen. unfold get, transpose, ndim in *. cbn [strides buf].
  rewrite <- Hst, permute_to_front by lia.
  rewrite offset_to_front by lia. reflexivity.
Qed.

Lemma permute_from_front {X} (d : X) (l : list X) (dst : nat) :
  dst < length l →
  permute d l (moveaxis_order (length l) 0 dst)
  = take dst (drop 1 l) ++ nth 0 l d :: drop dst (drop 1 l).
Proof.
  intros Hlt. rewrite moveaxis_order_from_front by exact Hlt.
  rewrite permute_app, permute_cons, !permute_seq by lia.
  do 2 f_equal. rewrite drop_drop.
  rewrite firstn_all2; [f_equal; lia|]. rewrite length_drop. lia.
Qed.

Lemma offset_from_front (st idx : list nat) (dst : nat) :
  dst < length st → length idx = length st →
  offset (take dst (drop 1 st) ++ nth 0 st 0 :: drop dst (drop 1 st)) idx
  = offset st (nth dst idx 0 :: (take dst idx ++ drop (S dst) idx)).
Proof.
  intros Hlt Hlen. destruct st as [|x m]; [simpl in Hlt; lia|].
  simpl drop. change (drop 0 m) with m. simpl nth. simpl in Hlt, Hlen.
  assert (Hidx : idx = take dst idx ++ nth dst idx 0 :: drop (S dst) idx).
  { symmetry. apply take_drop_middle. rewrite nth_lookup.
    destruct (lookup_lt_is_Some_2 idx dst) as [y ->]; [lia | reflexivity]. }
  rewrite Hidx at 1.
  rewrite offset_app by (rewrite !length_take; lia).
  simpl offset.
  rewrite <- (take_drop dst m) at 3.
  rewrite offset_app by (rewrite !length_take; lia). lia.
Qed.

Lemma get_from_front {T} `{Inhabited T} (A : ndarray T) (dst : nat) (idx : list nat) :
  length (strides A) = ndim A → dst < ndim A → length idx = ndim A →
  get (transpose A (moveaxis_order (ndim A) 0 dst)) idx
  = get A (nth dst idx 0 :: (take dst idx ++ drop (S dst) idx)).
Proof.
  intros Hst Hdst Hlen. unfold get, transpose, ndim in *. cbn [strides buf].
  rewrite <- Hst, permute_from_front by lia.
  rewrite offset_from_front by lia. reflexivity.
Qed.

Lemma in_range_to_front (idx sh : list nat) (src : nat) :
  in_range idx sh → src < length sh →
  in_range (nth src idx 0 :: (take src idx ++ drop (S src) idx))
           (nth src sh 0 :: (take src sh ++ drop (S src) sh)).
Proof.
  unfold in_range. intros Hin Hsrc.
  pose proof (Forall2_length _ _ _ Hin) as Hlen.
  constructor.
  - destruct (lookup_lt_is_Some_2 idx src) as [i Hi]; [lia|].
    destruct (lookup_lt_is_Some_2 sh src Hsrc) as [n Hn].
    rewrite !nth_lookup, Hi, Hn. simpl.
    exact (Forall2_lookup_lr _ _ _ _ _ _ Hin Hi Hn).
  - apply Forall2_app; [apply Forall2_take | apply Forall2_drop]; exact Hin.
Qed.

Lemma reassemble_index (idx : list nat) (src : nat) :
  src < length idx →
  take src (take src idx ++ drop (S src) idx)
    ++ nth src idx 0 :: drop src (take src idx ++ drop (S src) idx) = idx.
Proof.
  intros Hlt.
  rewrite take_app_le by (rewrite length_take; lia).
  rewrite take_take, Nat.min_id.
  rewrite drop_app_length' by (rewrite length_take; lia).
  apply take_drop_middle. rewrite nth_lookup.
  destruct (lookup_lt_is_Some_2 idx src Hlt) as [y ->]. reflexivity.
Qed.

(** The engine's results as the fresh arrays they are. *)
Lemma correct_cubes_fresh (Qdata Udata : ndarray float) (theta : ndarray complex)
    (n : nat) (s : list nat) :
  shape Qdata = n :: s → shape Udata = n :: s →
  length (strides Qdata) = ndim Qdata → shape theta = [n] →
  ∃ f : list nat → complex,
    correct_cubes Qdata Udata theta
      = Ok (from_fun (n :: s) (re ∘ f), from_fun (n :: s) (im ∘ f)) ∧
    ∀ i rest, in_range (i :: rest) (n :: s) →
      f (i :: rest) = cdiv (polarization Qdata Udata (i :: rest)) (get theta [i]).
Proof.
  intros HQ HU HQs Hth.
  destruct (theta_broadcast theta n s Hth) as (tb & Hresh & Htb & Hget).
  unfold correct_cubes, ufunc2, ufunc1.
  rewrite shape_from_fun, HQ, HU, broadcast_shapes_same.
  cbn [rbind]. rewrite shape_from_fun. cbn [rbind]. rewrite Hresh. cbn [rbind].
  rewrite Htb, broadcast_shapes_channel. cbn [rbind].
  rewrite !amap_from_fun.
  eexists. split; [reflexivity|].
  intros i rest Hin. cbv beta.
  set (P := from_fun (n :: s) _).
  assert (HP : broadcast_to P (n :: s) = P).
  { apply (broadcast_to_same P). unfold P, ndim. cbn [shape strides from_fun].
    apply length_c_strides. }
  rewrite HP, Hget by exact Hin. f_equal.
  unfold P. rewrite get_from_fun by exact Hin.
  rewrite <- HQ at 1. rewrite broadcast_to_same by exact HQs.
  set (iU := from_fun (n :: s) _).
  assert (HiU : broadcast_to iU (n :: s) = iU).
  { apply (broadcast_to_same iU). unfold iU, ndim. cbn [shape strides from_fun].
    apply length_c_strides. }
  rewrite HiU. unfold iU. rewrite get_from_fun by exact Hin. reflexivity.
Qed.

(** The first half of the pipeline: both cubes in canonical layout, then
    corrected.  The results are fresh arrays whose sample at a canonical
    index is the corrected sample of the native index it came from. *)
Lemma normalize_correct
    (dq du : ndarray float) (theta : ndarray complex) (ax N : Z) (n : nat) :
  Z.of_nat (ndim dq) = N →
  0 < ndim dq →
  shape du = shape dq →
  length (strides dq) = ndim dq →
  length (strides du) = ndim du →
  (0 ≤ ax ≤ N)%Z →
  nth (channel_axis ax N) (shape dq) 0 = n →
  shape theta = [n] →
  let src := channel_axis ax N in
  let s' := take src (shape dq) ++ drop (S src) (shape dq) in
  ∃ (Qdata Udata : ndarray float) (f : list nat → complex),
    to_canonical dq ax N = Ok Qdata ∧
    to_canonical du ax N = Ok Udata ∧
    shape Qdata = n :: s' ∧ shape Udata = n :: s' ∧
    correct_cubes Qdata Udata theta
      = Ok (from_fun (n :: s') (re ∘ f), from_fun (n :: s') (im ∘ f)) ∧
    ∀ idx, in_range idx (shape dq) →
      in_range (nth src idx 0 :: (take src idx ++ drop (S src) idx)) (n :: s') ∧
      f (nth src idx 0 :: (take src idx ++ drop (S src) idx))
      = cdiv (polarization dq du idx) (get theta [nth src idx 0]).
Proof.
  intros HN Hpos Hsh Hstq Hstu Hax Hn Hth src s'.
  assert (Hndu : ndim du = ndim dq) by (unfold ndim; rewrite Hsh; reflexivity).
  assert (Hsrc : src < ndim dq) by (apply (channel_axis_lt ax N); assumption).
  set (o1 := moveaxis_order (ndim dq) src 0).
  assert (HshQ : shape (transpose dq o1) = n :: s').
  { unfold transpose, o1, ndim. cbn [shape]. rewrite permute_to_front by exact Hsrc.
    fold src in Hn. rewrite Hn. reflexivity. }
  assert (HshU : shape (transpose du o1) = n :: s').
  { unfold transpose. cbn [shape]. rewrite Hsh. exact HshQ. }
  assert (HstQ : length (strides (transpose dq o1)) = ndim (transpose dq o1)).
  { unfold transpose, ndim. cbn [shape strides]. rewrite !permute_length. reflexivity. }
  destruct (correct_cubes_fresh _ _ theta n s' HshQ HshU HstQ Hth) as (f & Hrun & Hf).
  exists (transpose dq o1), (transpose du o1), f.
  split; [apply to_canonical_channel; assumption|].
  split.
  { rewrite (to_canonical_channel du ax N);
      [| rewrite Hndu; exact HN | exact Hstu | exact Hax | rewrite Hndu; exact Hpos].
    rewrite Hndu. reflexivity. }
  split; [exact HshQ|]. split; [exact HshU|]. split; [exact Hrun|].
  intros idx Hin.
  pose proof (Forall2_length _ _ _ Hin) as Hlen. fold (ndim dq) in Hlen.
  set (rest := take src idx ++ drop (S src) idx).
  assert (Hin' : in_range (nth src idx 0 :: rest) (n :: s')).
  { fold src in Hn. rewrite <- Hn. apply in_range_to_front; assumption. }
  assert (Hrest : length rest = ndim dq - 1).
  { unfold rest. rewrite length_app, length_take, length_drop. lia. }
  split; [exact Hin'|].
  rewrite Hf by exact Hin'. f_equal.
  unfold polarization, o1.
  rewrite (get_to_front dq) by assumption.
  rewrite <- Hndu at 1.
  rewrite (get_to_front du);
    [| exact Hstu | rewrite Hndu; exact Hsrc | rewrite Hndu; exact Hrest].
  unfold rest. rewrite reassemble_index by lia. reflexivity.
Qed.

(** The second half: a fresh array in canonical layout moved back. *)
Lemma restore_fresh {T} `{Inhabited T} (sh : list nat) (ax N : Z) (n : nat)
    (g : list nat → T) :
  Z.of_nat (length sh) = N → 0 < length sh → (0 ≤ ax ≤ N)%Z →
  nth (channel_axis ax N) sh 0 = n →
  let src := channel_axis ax N in
  let s' := take src sh ++ drop (S src) sh in
  ∃ A, to_native (from_fun (n :: s') g) ax N = Ok A ∧
       shape A = sh ∧
       ∀ idx, length idx = length sh →
         get A idx
         = get (from_fun (n :: s') g)
               (nth src idx 0 :: (take src idx ++ drop (S src) idx)).
Proof.
  intros HN Hpos Hax Hn src s'.
  assert (Hsrc : src < length sh) by (apply (channel_axis_lt ax N); assumption).
  assert (Hls : S (length s') = length sh).
  { unfold s'. rewrite length_app, length_take, length_drop. lia. }
  assert (Hnd : ndim (from_fun (n :: s') g) = length sh).
  { unfold ndim. rewrite shape_from_fun. exact Hls. }
  assert (Hst : length (strides (from_fun (n :: s') g)) = ndim (from_fun (n :: s') g)).
  { unfold ndim, from_fun. cbn [shape strides]. apply length_c_strides. }
  eexists. split.
  { apply to_native_channel; [rewrite Hnd; exact HN | exact Hst | exact Hax
                             | rewrite Hnd; exact Hpos]. }
  fold src. rewrite Hnd. split.
  - unfold transpose. cbn [shape]. rewrite shape_from_fun.
    rewrite <- Hn. fold src. unfold s'.
    rewrite <- (permute_to_front 0 sh src) by exact Hsrc.
    apply permute_roundtrip. exact Hsrc.
  - intros idx Hlen. rewrite <- Hnd. apply get_from_front.
    + exact Hst.
    + rewrite Hnd. exact Hsrc.
    + rewrite Hnd. exact Hlen.
Qed.

(** X6. Normalize, correct, restore.  For same-shape cubes of rank N >= 1
    and a detected axis [ax] in 0..N, with a 1-D theta as long as the cube is
    along its channel axis (array axis N - ax, or axis 0 when ax = 0): moving
    the channel axis to the front as [readData] does, correcting, and moving
    it back as [write_corrected_cubes] does succeeds, the outputs have the
    shape of the inputs, and every output sample is the real or imaginary
    part of [(Q + i*U)] at the same position divided by theta at that
    position's channel. *)
Theorem pipeline_in_native_layout
    (dq du : ndarray float) (theta : ndarray complex) (ax N : Z) (n : nat) :
  Z.of_nat (ndim dq) = N →
  0 < ndim dq →
  shape du = shape dq →
  length (strides dq) = ndim dq →
  length (strides du) = ndim du →
  (0 ≤ ax ≤ N)%Z →
  nth (channel_axis ax N) (shape dq) 0 = n →
  shape theta = [n] →
  ∃ Q' U',
    (Qdata ←? to_canonical dq ax N;
     Udata ←? to_canonical du ax N;
     '(Qcorr, Ucorr) ←? correct_cubes Qdata Udata theta;
     Qcorr ←? to_native Qcorr ax N;
     Ucorr ←? to_native Ucorr ax N;
     Ok (Qcorr, Ucorr)) = Ok (Q', U') ∧
    shape Q' = shape dq ∧ shape U' = shape dq ∧
    ∀ idx, in_range idx (shape dq) →
      let t := get theta [nth (channel_axis ax N) idx 0] in
      get Q' idx = re (cdiv (polarization dq du idx) t) ∧
      get U' idx = im (cdiv (polarization dq du idx) t).
Proof.
  intros HN Hpos Hsh Hstq Hstu Hax Hn Hth.
  destruct (normalize_correct dq du theta ax N n HN Hpos Hsh Hstq Hstu Hax Hn Hth)
    as (Qc & Uc & f & -> & -> & _ & _ & Hrun & Hf).
  cbn [rbind]. rewrite Hrun. cbn [rbind].
  destruct (restore_fresh (shape dq) ax N n (re ∘ f) HN Hpos Hax Hn)
    as (Q' & -> & HshQ & HgetQ).
  destruct (restore_fresh (shape dq) ax N n (im ∘ f) HN Hpos Hax Hn)
    as (U' & -> & HshU & HgetU).
  cbn [rbind]. exists Q', U'.
  split; [reflexivity|]. split; [exact HshQ|]. split; [exact HshU|].
  intros idx Hin.
  pose proof (Forall2_length _ _ _ Hin) as Hlen.
  destruct (Hf idx Hin) as [Hin' Hval].
  rewrite HgetQ, HgetU by exact Hlen.
  rewrite !get_from_fun by exact Hin'.
  unfold compose. rewrite Hval. split; reflexivity.
Qed.

Lemma pipeline_in_native_layout_witness :
  ∃ Q' U',
    (Qdata ←? to_canonical Q_native 1 3;
     Udata ←? to_canonical U_native 1 3;
     '(Qcorr, Ucorr) ←? correct_cubes Qdata Udata theta_example;
     Qcorr ←? to_native Qcorr 1 3;
     Ucorr ←? to_native Ucorr 1 3;
     Ok (Qcorr, Ucorr)) = Ok (Q', U') ∧
    shape Q' = shape Q_native ∧ shape U' = shape Q_native ∧
    ∀ idx, in_range idx (shape Q_native) →
      let t := get theta_example [nth (channel_axis 1 3) idx 0] in
      get Q' idx = re (cdiv (polarization Q_native U_native idx) t) ∧
      get U' idx = im (cdiv (polarization Q_native U_native idx) t).
Proof.
  apply (pipeline_in_native_layout Q_native U_native theta_example 1 3 2);
    [reflexivity | vm_compute; lia | reflexivity | reflexivity | reflexivity
    | lia | reflexivity | reflexivity].
Defined.

(** ** A complete run *)

Lemma read_prediction_triples (w : world) (path : string)
    (lines : list (list field)) (triples : list (field * field * field)) :
  fs w !! path = Some (TextFile lines) →
  data_rows lines = row_of <$> triples →
  2 ≤ length triples →
  ∃ freq theta,
    read_prediction path w = (Ok (freq, theta), w) ∧
    shape theta = [length triples] ∧
    ∀ i a b c, triples !! i = Some (a, b, c) →
      get theta [i]
      = cadd (of_real (field_value b)) (cmul imag_unit (of_real (field_value c))).
Proof.
  intros Hf Hrows Hlen. rewrite (read_prediction_text w path lines Hf).
  assert (Hne : data_rows lines ≠ []).
  { rewrite Hrows. destruct triples; [simpl in Hlen; lia | discriminate]. }
  assert (Hall : Forall (λ r, length r = 3) (data_rows lines)).
  { rewrite Hrows. apply forall_row_of. }
  rewrite (genfromtxt_uniform lines 3 Hne Hall). cbn [rbind].
  rewrite Hrows, length_fmap.
  destruct (load_three_columns triples Hlen) as (freq & theta & -> & _ & Hsh & Hget).
  exists freq, theta. split; [reflexivity|]. split; [exact Hsh|].
  intros i a b c Hi. exact (proj2 (Hget i a b c Hi)).
Qed.

Lemma find_freq_axis_bounds (h : header) (N ax : Z) :
  header_find "NAXIS" h = Some (VInt N) →
  find_freq_axis h = Ok ax → (0 ≤ ax ≤ Z.max 0 N)%Z.
Proof.
  intros HN. unfold find_freq_axis, header_getitem. rewrite HN. cbn [rbind value_index].
  intros [= <-].
  assert (Hrange : py_range 1 (N + 1) = py_range 1 (1 + Z.of_nat (Z.to_nat N))).
  { unfold py_range. f_equal. f_equal. lia. }
  rewrite Hrange. pose proof (scan_range h (Z.to_nat N)) as [Hr _]. lia.
Qed.

Lemma restore_layout_annotated (h : header) (Qcorr Ucorr : ndarray float) :
  restore_layout (annotated h) Qcorr Ucorr = restore_layout h Qcorr Ucorr.
Proof.
  unfold restore_layout, header_getitem.
  rewrite (annotated_same_axis h).
  unfold annotated. rewrite header_find_add_commentary by discriminate.
  reflexivity.
Qed.

Lemma readData_ok (Qfilename Ufilename : string) (w : world)
    (hq hu : header) (dq du Qdata Udata : ndarray float) (N_dim : value) (ax n : Z) :
  fs w !! Qfilename = Some (FitsFile hq dq) →
  fs w !! Ufilename = Some (FitsFile hu du) →
  header_getitem hq "NAXIS" = Ok N_dim →
  find_freq_axis hq = Ok ax →
  value_index N_dim = Ok n →
  to_canonical dq ax n = Ok Qdata →
  to_canonical du ax n = Ok Udata →
  readData Qfilename Ufilename w
  = (Ok (Qdata, Udata, length (heap w)),
     World (fs w) ((heap w ++ [hq]) ++ [hu]) (log w)).
Proof.
  intros HQ HU HN Hax Hn HcQ HcU. unfold readData.
  unfold io_bind at 1. unfold fits_open at 1. rewrite HQ.
  unfold io_bind at 1. unfold header_new at 1, io_ret at 1.
  unfold io_bind at 1. unfold fits_open at 1. cbn [fs]. rewrite HU.
  unfold io_bind at 1. unfold header_new at 1, io_ret at 1. cbn [fs heap log].
  unfold io_bind at 1.
  rewrite (header_cards_run (length (heap w)) _ hq).
  2:{ cbn [heap]. rewrite <- app_assoc. apply list_lookup_middle. reflexivity. }
  unfold io_bind, io_lift, io_ret.
  rewrite HN, Hax, Hn, HcQ, HcU. reflexivity.
Qed.

Lemma writeto_ok `{Writer} (path : string) (data : ndarray float) (l : loc)
    (overwrite : bool) (w : world) :
  overwrite = true ∨ fs w !! path = None →
  writeto path data l overwrite w
  = (Ok tt, World (<[path := FitsFile (stored_header (default ([] : header) (heap w !! l)) data) data]> (fs w))
                  (heap w) (log w ++ [CallWriteto path])).
Proof.
  intros [-> | Hfree]; [apply writeto_overwrite | apply writeto_fresh; exact Hfree].
Qed.


(** ** What a run can touch *)

Lemma frames_silent {A} (paths : list string) (m : io A) :
  disk_silent m → frames paths m.
Proof.
  intros Hm w. destruct (Hm w) as [Hfs Hlog]. split.
  - intros p _. rewrite Hfs. reflexivity.
  - exists []. rewrite Hlog, app_nil_r. reflexivity.
Qed.

Lemma frames_bind {A B} (paths : list string) (m : io A) (k : A → io B) :
  frames paths m → (∀ a, frames paths (k a)) → frames paths (io_bind m k).
Proof.
  intros Hm Hk w. unfold io_bind. destruct (Hm w) as [Hfs [l Hl]].
  destruct (m w) as [[a|e] w']; cbn [snd] in *.
  - destruct (Hk a w') as [Hfs' [l' Hl']]. split.
    + intros p Hp. rewrite Hfs', Hfs by exact Hp. reflexivity.
    + exists (l ++ l'). rewrite Hl', Hl, app_assoc. reflexivity.
  - split; [exact Hfs | exists l; exact Hl].
Qed.

Lemma frames_log (paths : list string) (e : event) : frames paths (io_log e).
Proof.
  intros w. split; [reflexivity | exists [e]; reflexivity].
Qed.

Lemma silent_add_history (l : loc) (text : string) : disk_silent (add_history l text).
Proof. intros w. split; reflexivity. Qed.

Lemma silent_header_copy (l : loc) : disk_silent (header_copy l).
Proof. unfold header_copy. silent_steps. Qed.

Lemma frames_writeto `{Writer} (paths : list string) (path : string) (data : ndarray float)
    (l : loc) (overwrite : bool) :
  path ∈ paths → frames paths (writeto path data l overwrite).
Proof.
  intros Hin w. split.
  - intros p Hp. assert (Hne : path ≠ p) by (intros ->; contradiction).
    destruct (writeto_cases path data l overwrite w) as [-> | ->]; cbn [snd fs].
    + reflexivity.
    + apply lookup_insert_ne. exact Hne.
  - exists [CallWriteto path].
    destruct (writeto_cases path data l overwrite w) as [-> | ->]; reflexivity.
Qed.

Lemma frames_write_corrected_cubes `{Writer} (Qout Uout : string) (Qcorr Ucorr : ndarray float)
    (hloc : loc) (overwrite : bool) :
  frames [Qout; Uout] (write_corrected_cubes Qout Uout Qcorr Ucorr hloc overwrite).
Proof.
  unfold write_corrected_cubes.
  apply frames_bind; [apply frames_silent, silent_header_copy | intros out].
  apply frames_bind; [apply frames_silent, silent_add_history | intros _].
  apply frames_bind; [apply frames_silent, silent_header_cards | intros cards].
  apply frames_bind; [apply frames_silent, silent_lift | intros [Q' U']].
  apply frames_bind; [apply frames_writeto; left | intros _].
  apply frames_writeto. right. left.
Qed.

Lemma keeps_silent {A} (m : io A) : disk_silent m → keeps_files m.
Proof. intros Hm w p f Hp. destruct (Hm w) as [-> _]. exact Hp. Qed.

Lemma keeps_bind {A B} (m : io A) (k : A → io B) :
  keeps_files m → (∀ a, keeps_files (k a)) → keeps_files (io_bind m k).
Proof.
  intros Hm Hk w p f Hp. unfold io_bind. specialize (Hm w p f Hp).
  destruct (m w) as [[a|e] w']; cbn [snd] in *; [apply Hk; exact Hm | exact Hm].
Qed.

Lemma keeps_log (e : event) : keeps_files (io_log e).
Proof. intros w p f Hp. exact Hp. Qed.

Lemma keeps_write_corrected_cubes `{Writer} (Qout Uout : string) (Qcorr Ucorr : ndarray float)
    (hloc : loc) :
  keeps_files (write_corrected_cubes Qout Uout Qcorr Ucorr hloc false).
Proof.
  unfold write_corrected_cubes.
  apply keeps_bind; [apply keeps_silent, silent_header_copy | intros out].
  apply keeps_bind; [apply keeps_silent, silent_add_history | intros _].
  apply keeps_bind; [apply keeps_silent, silent_header_cards | intros cards].
  apply keeps_bind; [apply keeps_silent, silent_lift | intros [Q' U']].
  apply keeps_bind; [intros w p f; apply writeto_keeps | intros _].
  intros w p f. apply writeto_keeps.
Qed.


(** ** Reading the cubes *)

Lemma moveaxis_rank_error {T} (A : ndarray T) (src : nat) :
  ndim A ≤ src → moveaxis A (Z.of_nat src) 0 = Raise AxisError.
Proof.
  intros Hge. unfold moveaxis, normalize_axis_index.
  destruct (_ && _) eqn:E; [|reflexivity].
  apply andb_true_iff in E as [_ Hhi]. apply Z.ltb_lt in Hhi. lia.
Qed.





(** ** Writing: one path for both outputs, and failing before the writes *)

(** X11. One path for both outputs.  [write_corrected_cubes] does not
    compare its two output names.  Given the same path twice, with
    [overwrite] on it succeeds and the file holds the U cube, the Q cube
    written first being replaced; with [overwrite] off and the path free it
    writes the Q cube and then fails with OSError, leaving the Q cube at the
    path. *)
Theorem write_corrected_cubes_same_path `{Writer} (w : world) (path : string)
    (Qcorr Ucorr Q' U' : ndarray float) (hloc : loc) (h : header) :
  heap w !! hloc = Some h →
  restore_layout (annotated h) Qcorr Ucorr = Ok (Q', U') →
  (let run := write_corrected_cubes path path Qcorr Ucorr hloc true w in
   run.1 = Ok tt ∧
   fs run.2 = <[path := FitsFile (stored_header (annotated h) U') U']> (fs w)) ∧
  (fs w !! path = None →
   let run := write_corrected_cubes path path Qcorr Ucorr hloc false w in
   run.1 = Raise OSError ∧
   fs run.2 = <[path := FitsFile (stored_header (annotated h) Q') Q']> (fs w)).
Proof.
  intros Hh Hrest.
  split.
  - intros run. subst run.
    destruct (write_corrected_cubes_run path path Qcorr Ucorr hloc true w h Hh)
      as [Hout ->].
    rewrite Hrest. unfold io_bind. rewrite !writeto_overwrite.
    cbn [fst snd fs heap log] in *. unfold loc in *. rewrite Hout. cbn [default].
    split; [reflexivity|]. apply insert_insert_eq.
  - intros Hfree run. subst run.
    destruct (write_corrected_cubes_run path path Qcorr Ucorr hloc false w h Hh)
      as [Hout ->].
    rewrite Hrest. unfold io_bind.
    rewrite (writeto_fresh path Q' _ false
               (World (fs w) (heap w ++ [annotated h]) (log w)) Hfree).
    erewrite writeto_conflict by (cbn [fs]; apply lookup_insert_eq).
    cbn [fst snd fs heap log] in *. unfold loc in *. rewrite Hout. cbn [default].
    split; reflexivity.
Qed.

(** ** The command line *)

(** X12. What the command line checks.  [command_line] raises "Stokes Q
    file not found." when nothing is at the Q path, whatever else is wrong,
    and "Stokes U file not found." when only the U cube is missing, both with
    the world untouched.  With both cubes present it is exactly
    [apply_correction_to_files] on its arguments; the prediction file is not
    checked, so a missing one surfaces as the loader's OSError. *)
Theorem command_line_checks `{Writer} (args : namespace) (w : world) :
  (fs w !! fitsQ args = None →
     command_line args w = (Raise (Exception "Stokes Q file not found."), w)) ∧
  (is_Some (fs w !! fitsQ args) → fs w !! fitsU args = None →
     command_line args w = (Raise (Exception "Stokes U file not found."), w)) ∧
  (is_Some (fs w !! fitsQ args) → is_Some (fs w !! fitsU args) →
     command_line args w
     = apply_correction_to_files (fitsQ args) (fitsU args) (predictionfile args)
         (outQ args) (outU args) (overwrite args) w ∧
     (fs w !! predictionfile args = None →
        command_line args w = (Raise OSError, w))).
Proof.
  unfold command_line, io_bind, isfile, io_raise.
  split; [|split].
  - intros HQ. rewrite bool_decide_eq_false_2; [reflexivity|].
    rewrite HQ. intros [x Hx]. discriminate.
  - intros HQ HU. rewrite bool_decide_eq_true_2 by exact HQ. cbn [negb].
    rewrite bool_decide_eq_false_2; [reflexivity|].
    rewrite HU. intros [x Hx]. discriminate.
  - intros HQ HU. rewrite bool_decide_eq_true_2 by exact HQ. cbn [negb].
    rewrite bool_decide_eq_true_2 by exact HU. cbn [negb].
    split; [reflexivity|].
    intros Hpred. unfold apply_correction_to_files. apply io_bind_raise.
    unfold read_prediction. rewrite Hpred. reflexivity.
Qed.

(** ** Degenerate prediction tables *)

(** X13. Tables that load as one channel.  A table with a single row of
    three fields loads as 0-d values: frequency, and [theta = real + 1.j*imag]
    of size 1.  A table of three rows with one field each loads the same way,
    its rows read as frequency, real part and imaginary part. *)
Theorem read_prediction_one_channel (w : world) (path : string)
    (lines : list (list field)) (a b c : field) :
  fs w !! path = Some (TextFile lines) →
  data_rows lines = [[a; b; c]] ∨ data_rows lines = [[a]; [b]; [c]] →
  ∃ freq theta,
    read_prediction path w = (Ok (freq, theta), w) ∧
    shape freq = [] ∧ shape theta = [] ∧ size_of (shape theta) = 1 ∧
    get freq [] = field_value a ∧
    get theta []
      = cadd (of_real (field_value b)) (cmul imag_unit (of_real (field_value c))).
Proof.
  intros Hf Hrows. rewrite (read_prediction_text w path lines Hf).
  unfold genfromtxt. fold (data_rows lines).
  destruct Hrows as [-> | ->]; cbn; eexists _, _; repeat split; reflexivity.
Qed.

Lemma read_prediction_one_channel_witness :
  ∃ freq theta,
    read_prediction "prediction.txt"
      (disk_of "prediction.txt" (TextFile one_column))
    = (Ok (freq, theta), disk_of "prediction.txt" (TextFile one_column)) ∧
    shape freq = [] ∧ shape theta = [] ∧ size_of (shape theta) = 1 ∧
    get freq [] = field_value (Num 1) ∧
    get theta []
      = cadd (of_real (field_value (Num 2))) (cmul imag_unit (of_real (field_value (Num 3)))).
Proof.
  apply (read_prediction_one_channel
           (disk_of "prediction.txt" (TextFile one_column)) "prediction.txt"
           one_column (Num 1) (Num 2) (Num 3));
    [reflexivity | right; reflexivity].
Defined.

(** ** Axis moves are views *)

Lemma moveaxis_order_perm (nd src dst : nat) :
  src < nd → moveaxis_order nd src dst ≡ₚ seq 0 nd.
Proof.
  intros Hlt. unfold moveaxis_order, list_insert_at.
  assert (Hseq : seq 0 nd = seq 0 src ++ src :: seq (S src) (nd - S src)).
  { replace nd with (src + S (nd - S src)) at 1 by lia. rewrite seq_app. reflexivity. }
  rewrite <- Permutation_middle, take_drop, filter_ne_seq by exact Hlt.
  rewrite Permutation_middle, Hseq. reflexivity.
Qed.

Lemma permute_perm {X} (d : X) (l : list X) (order : list nat) :
  order ≡ₚ seq 0 (length l) → permute d l order ≡ₚ l.
Proof.
  intros Hp. unfold permute. rewrite Hp. fold (permute d l (seq 0 (length l))).
  rewrite permute_id. reflexivity.
Qed.

Lemma size_of_perm (s1 s2 : list nat) : s1 ≡ₚ s2 → size_of s1 = size_of s2.
Proof.
  intros Hp. unfold size_of. induction Hp; simpl; lia.
Qed.

Lemma moveaxis_view {T} (A B : ndarray T) (source destination : Z) :
  moveaxis A source destination = Ok B →
  buf B = buf A ∧ shape B ≡ₚ shape A ∧ length (strides B) = length (shape B).
Proof.
  unfold moveaxis. intros HB.
  destruct (normalize_axis_index source (ndim A)) as [src|] eqn:Hs; [|discriminate].
  destruct (normalize_axis_index destination (ndim A)) as [dst|] eqn:Hd; [|discriminate].
  cbn [rbind] in HB. injection HB as <-.
  apply normalize_axis_index_lt in Hs.
  unfold transpose. cbn [shape strides buf].
  split; [reflexivity|]. split.
  - apply permute_perm, moveaxis_order_perm. exact Hs.
  - rewrite !permute_length. reflexivity.
Qed.

(** X14. Axis moves are views.  Whenever the move of [readData] or the move
    of [write_corrected_cubes] succeeds on a cube, the result shares the
    cube's buffer, its shape is a rearrangement of the cube's shape, and it
    holds the same number of samples: no sample is copied, dropped or
    added. *)
Theorem axis_moves_are_views {T} (A B : ndarray T) (ax N : Z) :
  to_canonical A ax N = Ok B ∨ to_native A ax N = Ok B →
  buf B = buf A ∧ shape B ≡ₚ shape A ∧ size_of (shape B) = size_of (shape A).
Proof.
  assert (Hmove : ∀ s d, moveaxis A s d = Ok B →
            buf B = buf A ∧ shape B ≡ₚ shape A ∧ size_of (shape B) = size_of (shape A)).
  { intros s d HB. destruct (moveaxis_view A B s d HB) as (Hb & Hp & _).
    split; [exact Hb|]. split; [exact Hp | apply size_of_perm; exact Hp]. }
  unfold to_canonical, to_native. intros [HB | HB].
  - destruct (bool_decide _); [exact (Hmove _ _ HB)|].
    injection HB as <-. repeat split; reflexivity.
  - destruct (bool_decide _); [exact (Hmove _ _ HB)|].
    injection HB as <-. repeat split; reflexivity.
Qed.

Lemma axis_moves_are_views_witness :
  buf (transpose cube234 [2; 0; 1]) = buf cube234 ∧
  shape (transpose cube234 [2; 0; 1]) ≡ₚ shape cube234 ∧
  size_of (shape (transpose cube234 [2; 0; 1])) = size_of (shape cube234).
Proof.
  apply (axis_moves_are_views cube234 (transpose cube234 [2; 0; 1]) 1 3).
  left. reflexivity.
Defined.

(** ** Failing before the writes *)

(** X15. Failing before the writes.  When the cubes cannot be put back in
    the layout the header describes, [write_corrected_cubes] raises before
    either [writeto]: no file is written and no write is attempted; only the
    annotated copy of the header has been created.  A header without NAXIS
    makes it raise KeyError this way. *)
Theorem write_corrected_cubes_fails_early `{Writer} (w : world) (Qout Uout : string)
    (Qcorr Ucorr : ndarray float) (hloc : loc) (overwrite : bool) (h : header) :
  heap w !! hloc = Some h →
  let run := write_corrected_cubes Qout Uout Qcorr Ucorr hloc overwrite w in
  let w' := World (fs w) (heap w ++ [annotated h]) (log w) in
  (∀ e, restore_layout h Qcorr Ucorr = Raise e → run = (Raise e, w')) ∧
  (header_find "NAXIS" h = None → run = (Raise KeyError, w')).
Proof.
  intros Hh run w'. subst run w'.
  destruct (write_corrected_cubes_run Qout Uout Qcorr Ucorr hloc overwrite w h Hh)
    as [_ ->].
  rewrite restore_layout_annotated.
  split.
  - intros e ->. reflexivity.
  - intros HN. unfold restore_layout, header_getitem. rewrite HN. reflexivity.
Qed.

(** ** The engine sees samples, not layouts *)

Lemma indices_in_range (s idx : list nat) : idx ∈ indices s → in_range idx s.
Proof.
  revert idx. induction s as [|n s IH]; intros idx Hin.
  - apply list_elem_of_singleton in Hin as ->. constructor.
  - simpl in Hin. apply list_elem_of_bind in Hin as (i & Hidx & Hi).
    apply list_elem_of_fmap in Hidx as (rest & -> & Hrest).
    apply elem_of_seq in Hi. constructor; [lia | apply IH; exact Hrest].
Qed.

Lemma from_fun_ext {T} (s : list nat) (f g : list nat → T) :
  (∀ idx, in_range idx s → f idx = g idx) → from_fun s f = from_fun s g.
Proof.
  intros Hfg. unfold from_fun. f_equal.
  apply list_fmap_ext. intros i idx Hidx. apply Hfg, indices_in_range.
  apply list_elem_of_lookup. exists i. exact Hidx.
Qed.

(** X16. The engine sees samples, not layouts.  Two cube pairs of one shape
    whose samples agree at every index, with predictions that agree on every
    channel, give the same outputs, whatever strides and buffers hold them:
    a transposed view and a contiguous copy are corrected alike. *)
Theorem correct_cubes_layout_blind
    (Q1 U1 Q2 U2 : ndarray float) (theta1 theta2 : ndarray complex)
    (n : nat) (s : list nat) :
  shape Q1 = n :: s → shape U1 = n :: s →
  shape Q2 = n :: s → shape U2 = n :: s →
  length (strides Q1) = ndim Q1 → length (strides Q2) = ndim Q2 →
  shape theta1 = [n] → shape theta2 = [n] →
  (∀ idx, in_range idx (n :: s) →
     get Q1 idx = get Q2 idx ∧ get U1 idx = get U2 idx) →
  (∀ i, i < n → get theta1 [i] = get theta2 [i]) →
  correct_cubes Q1 U1 theta1 = correct_cubes Q2 U2 theta2.
Proof.
  intros HQ1 HU1 HQ2 HU2 Hs1 Hs2 Ht1 Ht2 Hsame Htheta.
  destruct (correct_cubes_fresh Q1 U1 theta1 n s HQ1 HU1 Hs1 Ht1) as (f1 & -> & Hf1).
  destruct (correct_cubes_fresh Q2 U2 theta2 n s HQ2 HU2 Hs2 Ht2) as (f2 & -> & Hf2).
  assert (Hf : ∀ idx, in_range idx (n :: s) → f1 idx = f2 idx).
  { intros idx Hin. inversion Hin as [|i m rest s' Hi Hrest]; subst.
    rewrite Hf1, Hf2 by exact Hin. unfold polarization.
    destruct (Hsame _ Hin) as [-> ->]. rewrite (Htheta i Hi). reflexivity. }
  f_equal. f_equal; apply from_fun_ext; intros idx Hin; unfold compose;
    rewrite (Hf idx Hin); reflexivity.
Qed.

Lemma correct_cubes_layout_blind_witness :
  correct_cubes Q_example U_example theta_example
  = correct_cubes Q_example_strided U_example theta_example.
Proof.
  apply (correct_cubes_layout_blind Q_example U_example Q_example_strided U_example
           theta_example theta_example 2 [1; 1]); try reflexivity.
  intros idx Hin.
  inversion Hin as [|i ? r1 ? Hi H1]; subst.
  inversion H1 as [|j ? r2 ? Hj H2]; subst.
  inversion H2 as [|k ? r3 ? Hk H3]; subst.
  inversion H3; subst.
  assert (j = 0) as -> by lia. assert (k = 0) as -> by lia.
  destruct i as [|[|i]]; [split; reflexivity | split; reflexivity | lia].
Defined.

(** ** A prediction with one entry *)

Lemma theta_broadcast_one {T} `{Inhabited T} (theta : ndarray T) (n : nat) (s : list nat) :
  shape theta = [1] →
  ∃ theta_b,
    reshape theta (size_of (shape theta) :: replicate (length s) 1) = Ok theta_b ∧
    shape theta_b = 1 :: replicate (length s) 1 ∧
    ∀ idx, in_range idx (n :: s) →
      get (broadcast_to theta_b (n :: s)) idx = get theta [0].
Proof.
  intros Hsh. unfold reshape. rewrite Hsh.
  assert (Hsz : size_of (size_of [1] :: replicate (length s) 1) = size_of [1]).
  { simpl. fold (size_of (replicate (length s) 1)). rewrite size_of_ones. lia. }
  rewrite Hsz, Nat.eqb_refl.
  eexists. split; [reflexivity|]. split; [reflexivity|].
  intros idx Hin. inversion Hin as [|i m rest s' Hi Hrest]; subst.
  unfold get, broadcast_to, ndim. cbn [shape strides buf].
  simpl length. rewrite length_replicate, Nat.sub_diag.
  simpl. fold (size_of (replicate (length s) 1)).
  rewrite size_of_ones, c_strides_ones.
  rewrite offset_stretched by exact Hrest.
  match goal with
  | |- nth ?k _ _ = _ =>
      assert (Hoff : k = 0) by (destruct n as [|[|n]]; simpl; lia); rewrite Hoff
  end.
  apply (ravel_1d theta 1 0); [exact Hsh | lia].
Qed.

(** X17. A prediction with one entry.  Called with same-shape cubes of any
    number of channels and a 1-D theta of one entry, [correct_cubes] applies
    that entry to every channel: the outputs have the cubes' shape and each
    sample is the real or imaginary part of [Q + i*U] divided by
    [theta[0]]. *)
Theorem correct_cubes_single_entry
    (Qdata Udata : ndarray float) (theta : ndarray complex) (n : nat) (s : list nat) :
  shape Qdata = n :: s →
  shape Udata = n :: s →
  length (strides Qdata) = ndim Qdata →
  shape theta = [1] →
  ∃ Qcorr Ucorr,
    correct_cubes Qdata Udata theta = Ok (Qcorr, Ucorr) ∧
    shape Qcorr = n :: s ∧ shape Ucorr = n :: s ∧
    ∀ idx, in_range idx (n :: s) →
      get Qcorr idx = re (cdiv (polarization Qdata Udata idx) (get theta [0])) ∧
      get Ucorr idx = im (cdiv (polarization Qdata Udata idx) (get theta [0])).
Proof.
  intros HQ HU HQs Hth.
  destruct (theta_broadcast_one theta n s Hth) as (tb & Hresh & Htb & Hget).
  unfold correct_cubes, ufunc2, ufunc1.
  rewrite shape_from_fun, HQ, HU, broadcast_shapes_same.
  cbn [rbind]. rewrite shape_from_fun. cbn [rbind]. rewrite Hresh. cbn [rbind].
  rewrite Htb, broadcast_shapes_channels, broadcast_dim_one. cbn [rbind].
  rewrite !amap_from_fun.
  eexists _, _. split; [reflexivity|]. split; [reflexivity|]. split; [reflexivity|].
  intros idx Hin. rewrite !get_from_fun by exact Hin. unfold compose.
  set (P := from_fun (n :: s) _).
  assert (HP : broadcast_to P (n :: s) = P).
  { apply (broadcast_to_same P). unfold P, ndim. cbn [shape strides from_fun].
    apply length_c_strides. }
  rewrite HP, Hget by exact Hin.
  assert (HPget : get P idx = polarization Qdata Udata idx).
  { unfold P. rewrite get_from_fun by exact Hin.
    rewrite <- HQ at 1. rewrite broadcast_to_same by exact HQs.
    set (iU := from_fun (n :: s) _).
    assert (HiU : broadcast_to iU (n :: s) = iU).
    { apply (broadcast_to_same iU). unfold iU, ndim. cbn [shape strides from_fun].
      apply length_c_strides. }
    rewrite HiU. unfold iU. rewrite get_from_fun by exact Hin. reflexivity. }
  rewrite HPget. split; reflexivity.
Qed.

Lemma correct_cubes_single_entry_witness :
  ∃ Qcorr Ucorr,
    correct_cubes Q_example U_example (array1 [Complex 0 1]) = Ok (Qcorr, Ucorr) ∧
    shape Qcorr = [2; 1; 1] ∧ shape Ucorr = [2; 1; 1] ∧
    ∀ idx, in_range idx [2; 1; 1] →
      get Qcorr idx
        = re (cdiv (polarization Q_example U_example idx) (get (array1 [Complex 0 1]) [0])) ∧
      get Ucorr idx
        = im (cdiv (polarization Q_example U_example idx) (get (array1 [Complex 0 1]) [0])).
Proof.
  apply (correct_cubes_single_entry Q_example U_example (array1 [Complex 0 1]) 2 [1; 1]);
    reflexivity.
Defined.

(** * The properties at concrete inputs *)

#[local] Existing Instance float64_writer.

Lemma consistency_gate_witness :
  ∃ w2,
    let run := apply_correction_to_files "q.fits" "u.fits" "prediction.txt"
                 "q_out.fits" "u_out.fits" false mismatched_world in
    (shape Q_example ≠ shape U_wide →
       run = (Raise (Exception "Q and U files don't have same dimensions."), w2)) ∧
    (∀ channels rest,
       shape Q_example = shape U_wide →
       shape Q_example = channels :: rest →
       channels ≠ size_of [2] →
       run = (Raise (Exception
                "Prediction file does not have same number of channels as FITS cube."),
              w2)) ∧
    fs w2 = fs mismatched_world ∧ log w2 = log mismatched_world.
Proof.
  eexists.
  eapply (consistency_gate mismatched_world mismatched_world _
            "q.fits" "u.fits" "prediction.txt" "q_out.fits" "u_out.fits" false
            _ (NDArray [2] [1] _) Q_example U_wide);
    vm_compute; reflexivity.
Defined.


Lemma header_frame_witness :
  let run := write_corrected_cubes "q_out.fits" "u_out.fits" Q_example U_example
               0 true history_world in
  heap run.2 !! 0 = Some history_header ∧
  heap run.2 = heap history_world ++ [annotated history_header] ∧
  note_card ∈ annotated history_header ∧
  (∀ key, key ≠ "HISTORY" → key ≠ "" →
     header_find key (annotated history_header) = header_find key history_header) ∧
  (∀ h1 v h2, history_header = h1 ++ ("HISTORY", v) :: h2 →
     header_find "HISTORY" h2 = None → ends_blank history_header = false →
     annotated history_header = h1 ++ ("HISTORY", v) :: note_card :: h2) ∧
  (header_find "HISTORY" history_header = None → ends_blank history_header = false →
     annotated history_header = history_header ++ [note_card]) ∧
  str_contains "Corrected for ionospheric Faraday rotation" history_note = true ∧
  (∀ p f, fs run.2 !! p = Some f →
     fs history_world !! p = Some f ∨
     ∃ data, f = FitsFile (stored_header (annotated history_header) data) data) ∧
  (run.1 = Ok tt →
     ∃ Q' U',
       restore_layout (annotated history_header) Q_example U_example = Ok (Q', U') ∧
       fs run.2 !! "u_out.fits"
         = Some (FitsFile (stored_header (annotated history_header) U') U') ∧
       ("q_out.fits" ≠ "u_out.fits" →
        fs run.2 !! "q_out.fits"
          = Some (FitsFile (stored_header (annotated history_header) Q') Q'))).
Proof.
  apply (header_frame history_world "q_out.fits" "u_out.fits"
           Q_example U_example 0 true history_header).
  reflexivity.
Defined.



Lemma write_corrected_cubes_same_path_witness :
  (let run := write_corrected_cubes "out.fits" "out.fits" Q_example U_example
                0 true occupied_world in
   run.1 = Ok tt ∧
   fs run.2 = <["out.fits" := FitsFile (stored_header (annotated cube_header) U_example) U_example]>
                (fs occupied_world)) ∧
  (fs occupied_world !! "out.fits" = None →
   let run := write_corrected_cubes "out.fits" "out.fits" Q_example U_example
                0 false occupied_world in
   run.1 = Raise OSError ∧
   fs run.2 = <["out.fits" := FitsFile (stored_header (annotated cube_header) Q_example) Q_example]>
                (fs occupied_world)).
Proof.
  apply (write_corrected_cubes_same_path occupied_world "out.fits"
           Q_example U_example Q_example U_example 0 cube_header);
    [reflexivity | vm_compute; reflexivity].
Defined.

Lemma command_line_checks_witness :
  command_line (Namespace "q.fits" "u.fits" "nowhere.txt" "q_out.fits" "u_out.fits" false)
               native_world
  = (Raise OSError, native_world).
Proof.
  destruct (command_line_checks
              (Namespace "q.fits" "u.fits" "nowhere.txt" "q_out.fits" "u_out.fits" false)
              native_world) as (_ & _ & Hboth).
  apply Hboth; [eexists; reflexivity | eexists; reflexivity | reflexivity].
Defined.

Lemma write_corrected_cubes_fails_early_witness :
  let run := write_corrected_cubes "q_out.fits" "u_out.fits" Q_example U_example
               0 true (World ∅ [[("CTYPE1", VStr "FREQ")]] []) in
  let w' := World ∅ [[("CTYPE1", VStr "FREQ")]; annotated [("CTYPE1", VStr "FREQ")]] [] in
  (∀ e, restore_layout [("CTYPE1", VStr "FREQ")] Q_example U_example = Raise e →
        run = (Raise e, w')) ∧
  (header_find "NAXIS" [("CTYPE1", VStr "FREQ")] = None → run = (Raise KeyError, w')).
Proof.
  apply (write_corrected_cubes_fails_early (World ∅ [[("CTYPE1", VStr "FREQ")]] [])
           "q_out.fits" "u_out.fits" Q_example U_example 0 true
           [("CTYPE1", VStr "FREQ")]).
  reflexivity.
Defined.
